(** * Sticker processing: cut and bleed geometry, canvas fitting

    A shallow embedding of [tools/process_stickers.py].

    - Images are numpy arrays: a 2-D array is a list of rows ([grid A]); an
      RGBA image is a grid of 4-channel pixels.
    - Python floats (sizes, DPI, distances) are the rationals they denote
      ([Q]); comparisons are exact, and each arithmetic operation returns
      the exact result rounded to the 53 significant bits of a binary64
      float ([round]). The exponent range is not bounded: overflow,
      underflow, infinities and NaN lie outside the model.
    - A raised Python exception is the [Raise] case of [result]; the script
      has no handler of its own, so an exception leaves every enclosing
      function.
    - The two numerical library calls the script makes, [skfmm.distance] and
      [skimage.measure.label], are parameters of the model. *)

From Stdlib Require Import ZArith QArith Qround Qpower Lia List Bool String.
From Stdlib Require Import Sorted.
From stdpp Require Import base list sorting strings.

Local Open Scope nat_scope.

(** ** Exceptions *)

Inductive exn : Type :=
| ValueError
| TypeError
| ZeroDivisionError
| IndexError
| OSError.

Inductive result (A : Type) : Type :=
| Ok (a : A)
| Raise (e : exn).

Arguments Ok {A} a.
Arguments Raise {A} e.

#[export] Instance result_ret : MRet result := fun _ a => Ok a.

#[export] Instance result_bind : MBind result := fun _ _ k m =>
  match m with
  | Ok a => k a
  | Raise e => Raise e
  end.

Definition of_option {A : Type} (e : exn) (o : option A) : result A :=
  match o with
  | Some a => Ok a
  | None => Raise e
  end.

(** ** [sorted]: Python's stable sort

    [sorted] is stable, and the output of a stable sort is determined by the
    input and the order; insertion from the right gives it directly. *)

Section StableSort.
Context {A : Type} (leb : A -> A -> bool).

Fixpoint insert_by (x : A) (l : list A) : list A :=
  match l with
  | [] => [x]
  | y :: l' => if leb x y then x :: l else y :: insert_by x l'
  end.

Fixpoint sorted_by (l : list A) : list A :=
  match l with
  | [] => []
  | x :: l' => insert_by x (sorted_by l')
  end.
End StableSort.

(** ** Float comparisons *)

Definition Qltb (x y : Q) : bool := negb (Qle_bool y x).

(** ** [find_smallest_size] *)

Fixpoint first_larger (size : Q) (l : list Q) : result Q :=
  match l with
  | [] => Raise ValueError
  | size_to_check :: l' =>
      if Qltb size size_to_check then Ok size_to_check
      else first_larger size l'
  end.

Definition find_smallest_size (size : Q) (size_list : list Q) : result Q :=
  first_larger size (sorted_by Qle_bool size_list).

(** ** Arrays *)

Abbreviation grid A := (list (list A)).

Definition pixel_at {A : Type} (m : grid A) (r c : nat) : option A :=
  row ← m !! r; row !! c.

Definition set_pixel {A : Type} (m : grid A) (r c : nat) (v : A) : grid A :=
  match m !! r with
  | Some row => <[r := <[c := v]> row]> m
  | None => m
  end.

Definition grid_map {A B : Type} (f : A -> B) (m : grid A) : grid B :=
  fmap (M := list) (fmap (M := list) f) m.

Definition grid_zip_with {A B C : Type} (f : A -> B -> C)
    (a : grid A) (b : grid B) : grid C :=
  zip_with (zip_with f) a b.

(** [m.shape] of a 2-D array with at least one row. *)
Definition nrows {A : Type} (m : grid A) : nat := length m.
Definition ncols {A : Type} (m : grid A) : nat := length (hd [] m).
Definition shape {A : Type} (m : grid A) : nat * nat := (nrows m, ncols m).

Definition rectangular {A : Type} (m : grid A) : Prop :=
  Forall (fun row => length row = ncols m) m.

Definition same_shape {A B : Type} (a : grid A) (b : grid B) : bool :=
  bool_decide (map length a = map length b).

(** [a[i:j]] for [0 <= i]. *)
Definition slice {A : Type} (i j : nat) (l : list A) : list A :=
  take (j - i) (drop i l).

(** Every pixel on in [a] is on in [b]. *)
Definition subset_mask (a b : grid bool) : Prop :=
  forall r c, pixel_at a r c = Some true -> pixel_at b r c = Some true.

(** ** [skimage.measure.regionprops]

    One region per label occurring in the label image, in ascending label
    order; [coords] lists the region's pixels in raster order and [bbox] is
    [(min_row, min_col, max_row, max_col)], half-open. *)

Record region : Type := {
  region_label : nat;
  coords : list (nat * nat);
  bbox : nat * nat * nat * nat
}.

Definition num_pixels (props : region) : nat := length (coords props).

Fixpoint find_cols (l : nat) (c : nat) (row : list nat) : list nat :=
  match row with
  | [] => []
  | x :: row' =>
      if x =? l then c :: find_cols l (S c) row' else find_cols l (S c) row'
  end.

Fixpoint find_coords (l : nat) (r : nat) (m : grid nat) : list (nat * nat) :=
  match m with
  | [] => []
  | row :: m' => (pair r <$> find_cols l 0 row) ++ find_coords l (S r) m'
  end.

Definition max_label (m : grid nat) : nat :=
  foldr (fun row acc => Nat.max (foldr Nat.max 0 row) acc) 0 m.

Definition bbox_of (cs : list (nat * nat)) : nat * nat * nat * nat :=
  match cs with
  | [] => (0, 0, 0, 0)
  | (r0, c0) :: cs' =>
      (foldr Nat.min r0 (map fst cs'), foldr Nat.min c0 (map snd cs'),
       S (foldr Nat.max r0 (map fst cs')), S (foldr Nat.max c0 (map snd cs')))
  end.

Definition region_of (label_image : grid nat) (l : nat) : option region :=
  match find_coords l 0 label_image with
  | [] => None
  | cs => Some {| region_label := l; coords := cs; bbox := bbox_of cs |}
  end.

Definition regionprops (label_image : grid nat) : list region :=
  omap (region_of label_image) (seq 1 (max_label label_image)).

(** The order of [sorted(regions, key=lambda x: -x.num_pixels)]. *)
Definition larger_first (a b : region) : bool :=
  (- Z.of_nat (num_pixels a) <=? - Z.of_nat (num_pixels b))%Z.

(** ** Index assignment

    [mask[tuple(coords.T)] = v] checks every index before it writes. *)

Definition in_grid {A : Type} (m : grid A) (p : nat * nat) : bool :=
  match pixel_at m p.1 p.2 with
  | Some _ => true
  | None => false
  end.

Definition assign_coords {A : Type} (m : grid A) (cs : list (nat * nat))
    (v : A) : result (grid A) :=
  if forallb (in_grid m) cs
  then Ok (foldl (fun m p => set_pixel m p.1 p.2 v) m cs)
  else Raise IndexError.

(** [image[mask] = v] with a boolean mask of the image's own shape. *)
Definition assign_where {A : Type} (image : grid A) (mask : grid bool)
    (v : A) : result (grid A) :=
  if same_shape image mask
  then Ok (grid_zip_with (fun p (b : bool) => if b then v else p) image mask)
  else Raise IndexError.

(** ** [skimage.morphology.binary_dilation]

    The default footprint is the cross: a pixel and its four edge
    neighbours; pixels outside the image count as off. *)

Definition is_on (m : grid bool) (r c : nat) : bool :=
  default false (pixel_at m r c).

Definition binary_dilation (m : grid bool) : grid bool :=
  imap (fun r row =>
    imap (fun c (b : bool) =>
      b || is_on m (S r) c || is_on m r (S c)
        || match r with 0 => false | S r' => is_on m r' c end
        || match c with 0 => false | S c' => is_on m r c' end) row) m.

(** ** [adjust_image_size] *)

(** [numpy.pad(a, [(before_r, after_r), (before_c, after_c)],
    constant_values=v)]; a negative width is a [ValueError]. *)
Definition numpy_pad {A : Type} (a : grid A) (width : nat)
    (pad_rows pad_cols : Z * Z) (v : A) : result (grid A) :=
  if ((pad_rows.1 <? 0) || (pad_rows.2 <? 0)
      || (pad_cols.1 <? 0) || (pad_cols.2 <? 0))%Z
  then Raise ValueError
  else
    let before := Z.to_nat pad_cols.1 in
    let after := Z.to_nat pad_cols.2 in
    let blank := replicate (before + width + after) v in
    Ok (replicate (Z.to_nat pad_rows.1) blank
        ++ ((fun row => replicate before v ++ row ++ replicate after v) <$> a)
        ++ replicate (Z.to_nat pad_rows.2) blank).

Definition adjust_image_size {A : Type} (matrix : grid A)
    (bbox : nat * nat * nat * nat) (target_size_px : Z) (pad_value : A)
    : result (grid A) :=
  let '(bbox_x, bbox_y, bbox_width, bbox_height) := bbox in
  let pad_x1 := ((target_size_px - Z.of_nat bbox_width) `div` 2)%Z in
  let pad_y1 := ((target_size_px - Z.of_nat bbox_height) `div` 2)%Z in
  let pad_x2 := ((target_size_px - Z.of_nat bbox_width) - pad_x1)%Z in
  let pad_y2 := ((target_size_px - Z.of_nat bbox_height) - pad_y1)%Z in
  let source_pixels :=
    slice bbox_x (bbox_x + bbox_width)
      <$> slice bbox_y (bbox_y + bbox_height) matrix in
  (* source_pixels.shape[1], the length of [bbox_x : bbox_x + bbox_width]
     taken from a row of the matrix *)
  let source_width := Nat.min bbox_width (ncols matrix - bbox_x) in
  numpy_pad source_pixels source_width (pad_y1, pad_y2) (pad_x1, pad_x2)
    pad_value.

(** ** Float arithmetic

    A float operation returns the exact result rounded to the nearest float,
    ties to even. For [x > 0] the float nearest to [x] is [m * 2 ^ e] where
    [2 ^ (e + 52) <= x < 2 ^ (e + 53)] and [m] is the integer nearest to
    [x / 2 ^ e]. An integer operand is converted to a float first, which
    changes nothing below [2 ^ 53]. *)

(** The nearest integer, ties to even. *)
Definition nearest_even (x : Q) : Z :=
  let f := Qfloor x in
  match (x - inject_Z f ?= 1 # 2)%Q with
  | Lt => f
  | Gt => (f + 1)%Z
  | Eq => if Z.even f then f else (f + 1)%Z
  end.

(** For [x > 0], the [e] with [2 ^ (e + 52) <= x < 2 ^ (e + 53)]. *)
Definition exponent (x : Q) : Z :=
  let e := (Z.log2 (Qnum x) - Z.log2 (Zpos (Qden x)) - 52)%Z in
  if Qle_bool (2 ^ (e + 52)) x then e else (e - 1)%Z.

Definition round_positive (x : Q) : Q :=
  let e := exponent x in
  (inject_Z (nearest_even (x / 2 ^ e)) * 2 ^ e)%Q.

(** The float nearest to [x]. *)
Definition round (x : Q) : Q :=
  Qred match (x ?= 0)%Q with
       | Eq => 0
       | Gt => round_positive x
       | Lt => - round_positive (- x)
       end.

(** [x] is a value a float can hold. *)
Definition is_float (x : Q) : Prop := (round x == x)%Q.

(** [x * y], [x + y] and [x - y] on floats. *)
Definition float_mul (x y : Q) : Q := round (x * y).
Definition float_add (x y : Q) : Q := round (x + y).
Definition float_sub (x y : Q) : Q := round (x - y).

(** ** [expand_edge] *)

(** [numpy.where(numpy.int64(mask_image), -0.5, 0.5)] *)
Definition phi (mask_image : grid bool) : grid Q :=
  grid_map (fun b : bool => if b then - (1 # 2) else 1 # 2)%Q mask_image.

Section Pipeline.
(** [skfmm.distance(phi, dx=1)]: the signed distance to the zero contour of
    [phi], or an exception when it has none. *)
Variable distance : grid Q -> result (grid Q).

(** [skimage.measure.label]: 0 for background, components numbered from 1. *)
Variable label : grid bool -> grid nat.

Definition expand_edge (mask_image : grid bool) (thickness : Q)
    : result (grid bool) :=
  signed_distance ← distance (phi mask_image);
  mret (grid_map (fun v => Qle_bool v thickness) signed_distance).

(** *** Settings and designs

    Of a design's mapping the script reads the keys [art], [mask] and
    [width]; every other parameter is read from the settings. *)

Record design_details : Type := {
  art : option string;
  mask : option string;
  width : option Q
}.

Record settings : Type := {
  alpha_threshold : Z;
  thickness : Q;
  bleed_thickness : Q;
  min_corner_radius : Q;
  sizes : list Q;
  shared : design_details
}.

Definition rgba : Type := Z * Z * Z * Z.
Definition image : Type := grid rgba.

Definition white_transparent : rgba := (255, 255, 255, 0)%Z.
Definition black_opaque : rgba := (0, 0, 0, 255)%Z.
Definition gray_opaque : rgba := (128, 128, 128, 255)%Z.
Definition zero_pixel : rgba := (0, 0, 0, 0)%Z.

Definition alpha (p : rgba) : Z := p.2.

Record design_output : Type := {
  out_name : string;
  out_dpi : Q;
  out_size_inches : Q;
  out_size_pixels : Z;
  out_full_bleed : image;
  out_cut_mask : image;
  out_preview : image
}.

(** The design directory: the image files present and readable. *)
Variable files : string -> option image.

Definition imread (path : string) : result image :=
  of_option OSError (files path).

(** [x / y] on floats, and on an integer and a float. *)
Definition float_div (x y : Q) : result Q :=
  if Qeq_bool y 0 then Raise ZeroDivisionError else Ok (round (x / y)).

(** [int(x)]: truncation towards zero. *)
Definition int_of_float (x : Q) : Z := (Qnum x `quot` Zpos (Qden x))%Z.

(** [for key, value in settings.items(): if key not in design_details: ...] *)
Definition populate (s : settings) (d : design_details) : design_details :=
  {| art := match art d with Some a => Some a | None => art (shared s) end;
     mask := match mask d with Some a => Some a | None => mask (shared s) end;
     width := match width d with Some a => Some a | None => width (shared s) end
  |}.

(** *** The cut mask, its contour and the bleed mask *)

Definition remove_holes (outside_mask : grid bool) : result (grid bool) :=
  let regions := regionprops (label outside_mask) in
  let regions := sorted_by larger_first regions in
  foldl (fun acc props =>
           outside_mask ← acc; assign_coords outside_mask (coords props) false)
        (Ok outside_mask) (drop 1 regions).

Definition cut_geometry (s : settings) (dpi : Q) (mask_image : image)
    : result (grid bool * grid bool * grid bool) :=
  let thickness_px := float_mul (thickness s) dpi in
  let bleed_thickness_px := float_mul (bleed_thickness s) dpi in
  let min_corner_radius_px := float_mul (min_corner_radius s) dpi in
  let art_mask :=
    grid_map (fun p => (alpha p >? alpha_threshold s)%Z) mask_image in
  expanded ←
    expand_edge art_mask (float_add thickness_px min_corner_radius_px);
  let outside_mask := grid_map negb expanded in
  outside_mask ← remove_holes outside_mask;
  expanded ← expand_edge outside_mask min_corner_radius_px;
  let cut_mask := grid_map negb expanded in
  let cut_contour := grid_zip_with xorb (binary_dilation cut_mask) cut_mask in
  bleed_mask ← expand_edge cut_mask bleed_thickness_px;
  mret (cut_mask, cut_contour, bleed_mask).

(** *** The bounding box and the canvas *)

Definition bleed_bbox (bleed_mask : grid bool)
    : result (nat * nat * nat * nat) :=
  let regions := regionprops (label bleed_mask) in
  props ← of_option IndexError (regions !! 0);
  let '(min_row, min_col, max_row, max_col) := bbox props in
  mret (min_col, min_row, max_col - min_col, max_row - min_row).

Definition process_design (s : settings) (design_name : string)
    (details : design_details) : result design_output :=
  let details := populate s details in
  let design_dir := (design_name ++ "/")%string in
  let art_path := (design_dir ++ design_name ++ "_art.png")%string in
  let mask_path := (design_dir ++ design_name ++ "_mask.png")%string in
  let art_path :=
    match art details with
    | Some a => (design_dir ++ a)%string
    | None => art_path
    end in
  let mask_path :=
    match mask details with
    | Some m => (design_dir ++ m)%string
    | None => match files mask_path with
              | Some _ => mask_path
              | None => art_path
              end
    end in
  let width_inches := width details in
  color_image ← imread art_path;
  mask_image ← imread mask_path;
  let width_px := ncols color_image in
  dpi ← match width_inches with
        | Some w => float_div (inject_Z (Z.of_nat width_px)) w
        | None => Raise TypeError
        end;
  '(cut_mask, cut_contour, bleed_mask) ← cut_geometry s dpi mask_image;
  bbox ← bleed_bbox bleed_mask;
  let art_size_px := Nat.max bbox.1.2 bbox.2 in
  art_size_inches ← float_div (inject_Z (Z.of_nat art_size_px)) dpi;
  target_size_inches ← find_smallest_size art_size_inches (sizes s);
  let target_size_px := int_of_float (float_mul target_size_inches dpi) in
  color_image ← adjust_image_size color_image bbox target_size_px zero_pixel;
  bleed_mask ← adjust_image_size bleed_mask bbox target_size_px false;
  cut_mask ← adjust_image_size cut_mask bbox target_size_px false;
  cut_contour ← adjust_image_size cut_contour bbox target_size_px false;
  full_bleed_image ←
    assign_where color_image (grid_map negb bleed_mask) white_transparent;
  cut_mask_image ←
    assign_where color_image (grid_map negb cut_mask) white_transparent;
  cut_mask_image ← assign_where cut_mask_image cut_mask black_opaque;
  preview ← assign_where color_image (grid_map negb bleed_mask) gray_opaque;
  preview ← assign_where preview cut_contour black_opaque;
  mret {| out_name := design_name;
          out_dpi := dpi;
          out_size_inches := target_size_inches;
          out_size_pixels := target_size_px;
          out_full_bleed := full_bleed_image;
          out_cut_mask := cut_mask_image;
          out_preview := preview |}.

(** *** The loop over the designs

    The artefacts of the designs processed so far stay written when a later
    design raises; the exception itself leaves [main]. *)

Definition selected (design_name_list : list string) (design_name : string)
    : bool :=
  match design_name_list with
  | [] => true
  | _ => bool_decide (design_name ∈ design_name_list)
  end.

Fixpoint main (s : settings) (design_name_list : list string)
    (designs : list (string * design_details))
    : list design_output * option exn :=
  match designs with
  | [] => ([], None)
  | (design_name, details) :: rest =>
      if selected design_name_list design_name then
        match process_design s design_name details with
        | Ok out =>
            let '(outs, e) := main s design_name_list rest in
            (out :: outs, e)
        | Raise e => ([], Some e)
        end
      else main s design_name_list rest
  end.
End Pipeline.

(** ** Reference instances of the library calls

    Executable stand-ins used to run the pipeline on concrete images: a
    city-block signed distance with the contour halfway between neighbouring
    pixels of opposite sign, and an 8-connected labelling numbered in raster
    order of each component's first pixel. *)

Module Reference.

Definition all_coords {A : Type} (m : grid A) : list (nat * nat) :=
  concat (imap (fun r row => imap (fun c _ => (r, c)) row) m).

Definition cityblock (p q : nat * nat) : nat :=
  (Nat.max p.1 q.1 - Nat.min p.1 q.1) + (Nat.max p.2 q.2 - Nat.min p.2 q.2).

Definition negative (v : Q) : bool := Qltb v 0.

Definition nearest_opposite (phi : grid Q) (p : nat * nat) (v : Q) : nat :=
  let opposite :=
    filter (fun q => negb (eqb (negative v)
                             (negative (default 0%Q (pixel_at phi q.1 q.2)))))
           (all_coords phi) in
  match map (cityblock p) opposite with
  | [] => 0
  | d :: ds => foldr Nat.min d ds
  end.

Definition distance (phi : grid Q) : result (grid Q) :=
  let values := concat phi in
  if existsb negative values && existsb (fun v => negb (negative v)) values
  then
    Ok (imap (fun r row =>
          imap (fun c v =>
            let d := (inject_Z (Z.of_nat (pred (nearest_opposite phi (r, c) v)))
                      + (1 # 2))%Q in
            if negative v then (- d)%Q else d) row) phi)
  else Raise ValueError.

Definition neighbours (p : nat * nat) : list (nat * nat) :=
  let '(r, c) := p in
  [(pred r, pred c); (pred r, c); (pred r, S c);
   (r, pred c); (r, S c);
   (S r, pred c); (S r, c); (S r, S c)].

Fixpoint flood (fuel : nat) (mask : grid bool) (l : nat)
    (stack : list (nat * nat)) (lab : grid nat) : grid nat :=
  match fuel with
  | 0 => lab
  | S fuel' =>
      match stack with
      | [] => lab
      | p :: stack' =>
          if is_on mask p.1 p.2
             && (default 0 (pixel_at lab p.1 p.2) =? 0)
          then flood fuel' mask l (neighbours p ++ stack')
                 (set_pixel lab p.1 p.2 l)
          else flood fuel' mask l stack' lab
      end
  end.

Definition label (mask : grid bool) : grid nat :=
  let fuel := S (9 * length (all_coords mask)) in
  (foldl (fun '(lab, next) p =>
            if is_on mask p.1 p.2
               && (default 0 (pixel_at lab p.1 p.2) =? 0)
            then (flood fuel mask next [p] lab, S next)
            else (lab, next))
         (grid_map (fun _ => 0) mask, 1) (all_coords mask)).1.

End Reference.

Definition mask_of (rows : list (list nat)) : grid bool :=
  grid_map (fun n => negb (n =? 0)) rows.


(** ** What the model asks of the library calls

    Checked on the value a call returned: the distance field has the shape of
    [phi] and the sign of [phi] at every pixel; the label image has the shape
    of the mask and a non-zero label exactly at the pixels that are on. *)

Fixpoint forall2b {A B : Type} (f : A -> B -> bool) (l : list A) (k : list B)
    : bool :=
  match l, k with
  | [], [] => true
  | x :: l', y :: k' => f x y && forall2b f l' k'
  | _, _ => false
  end.

Definition keeps_sign (phi signed_distance : grid Q) : bool :=
  forall2b (forall2b (fun p d =>
    implb (Qltb p 0) (Qltb d 0) && implb (Qltb 0 p) (Qltb 0 d)))
    phi signed_distance.

Definition labels_foreground (mask : grid bool) (label_image : grid nat)
    : bool :=
  forall2b (forall2b (fun (b : bool) l => eqb b (negb (l =? 0))))
    mask label_image.

(** ** Shapes *)

(** The array is [n] by [n] pixels. *)
Definition is_square {A : Type} (m : grid A) (n : nat) : Prop :=
  shape m = (n, n) /\ rectangular m.

(** The array is rectangular and the box [(x, y, width, height)] lies inside
    it. *)
Definition contains_bbox {A : Type} (m : grid A)
    (bbox : nat * nat * nat * nat) : Prop :=
  let '(bbox_x, bbox_y, bbox_width, bbox_height) := bbox in
  rectangular m
  /\ bbox_x + bbox_width <= ncols m
  /\ bbox_y + bbox_height <= nrows m.

(** ** Sample designs

    Small images on which the pipeline runs to completion with the reference
    library calls: one pixel per inch, margins of half a pixel. *)

Module Sample.

Definition opaque : rgba := (10, 20, 30, 255)%Z.
Definition clear : rgba := (0, 0, 0, 0)%Z.

Definition image_of (rows : list (list nat)) : image :=
  grid_map (fun n => if n =? 0 then clear else opaque) rows.

Definition star : image := image_of
  [[0; 0; 0; 0; 0; 0; 0; 0];
   [0; 0; 0; 0; 0; 0; 0; 0];
   [0; 0; 0; 0; 0; 0; 0; 0];
   [0; 0; 0; 1; 1; 0; 0; 0];
   [0; 0; 0; 1; 1; 0; 0; 0];
   [0; 0; 0; 0; 0; 0; 0; 0];
   [0; 0; 0; 0; 0; 0; 0; 0];
   [0; 0; 0; 0; 0; 0; 0; 0]].

(** A dot above and to the left of a larger square. *)
Definition pair_art : image := image_of
  [[0; 0; 0; 0; 0; 0; 0; 0; 0; 0];
   [0; 0; 0; 0; 0; 0; 0; 0; 0; 0];
   [0; 0; 1; 0; 0; 0; 0; 0; 0; 0];
   [0; 0; 0; 0; 0; 0; 0; 0; 0; 0];
   [0; 0; 0; 0; 0; 0; 0; 0; 0; 0];
   [0; 0; 0; 0; 0; 0; 0; 0; 0; 0];
   [0; 0; 0; 0; 0; 0; 1; 1; 0; 0];
   [0; 0; 0; 0; 0; 0; 1; 1; 0; 0];
   [0; 0; 0; 0; 0; 0; 0; 0; 0; 0];
   [0; 0; 0; 0; 0; 0; 0; 0; 0; 0]].

Definition config : settings :=
  {| alpha_threshold := 100;
     thickness := 1 # 2;
     bleed_thickness := 1 # 2;
     min_corner_radius := 1 # 2;
     sizes := [4; 6; 8]%Q;
     shared := {| art := None; mask := None; width := None |} |}.

Definition files (path : string) : option image :=
  if String.eqb path "star/star_art.png" then Some star
  else if String.eqb path "pair/pair_art.png" then Some pair_art
  else None.

Definition with_width (w : Q) : design_details :=
  {| art := None; mask := None; width := Some w |}.

Definition no_width : design_details :=
  {| art := None; mask := None; width := None |}.

Definition star_mask : grid bool :=
  grid_map (fun p => (alpha p >? 100)%Z) star.

Definition star_field : grid Q :=
  match Reference.distance (phi star_mask) with
  | Ok signed_distance => signed_distance
  | Raise _ => []
  end.

Definition star_geometry : grid bool * grid bool * grid bool :=
  match cut_geometry Reference.distance Reference.label config 1 star with
  | Ok masks => masks
  | Raise _ => ([], [], [])
  end.

Definition pair_geometry : grid bool * grid bool * grid bool :=
  match cut_geometry Reference.distance Reference.label config 1 pair_art with
  | Ok masks => masks
  | Raise _ => ([], [], [])
  end.

(** Three components: one pixel, five pixels, one pixel. *)
Definition islands : grid bool :=
  grid_map (fun n => negb (n =? 0))
    [[1; 0; 0; 0; 0];
     [0; 0; 0; 1; 1];
     [0; 0; 1; 1; 1];
     [1; 0; 0; 0; 0]].

(** Two components of two pixels each. *)
Definition twins : grid bool :=
  grid_map (fun n => negb (n =? 0))
    [[1; 1; 0; 0];
     [0; 0; 0; 0];
     [0; 0; 1; 1]].

Definition twins_first : region :=
  {| region_label := 1; coords := [(0, 0); (0, 1)]; bbox := (0, 0, 1, 2) |}.

End Sample.

(** ** Offsets of the crop on the canvas *)

(** [pad_x1] and [pad_y1] of [adjust_image_size]: the padding before a crop
    of [n] pixels on a canvas of [target_size_px]. *)
Definition pad_before (target_size_px : Z) (n : nat) : nat :=
  Z.to_nat ((target_size_px - Z.of_nat n) `div` 2).

(** * The order manifest: [tools/create_sticker_order.py]

    The script turns an order (a mapping from design names to details) into
    one row per design and, on request, a summary. The rows and the summary
    are kept as values; how the numbers are printed is left out. Prices are
    floats: their products, sums and quotients are rounded ([round]);
    quantities are integers. *)

Module Order.

Inductive error : Type :=
| KeyError (key : string)
| ZeroDivisionError
| AttributeError.

Inductive outcome (A : Type) : Type :=
| Done (a : A)
| Raised (e : error).

Arguments Done {A} a.
Arguments Raised {A} e.

#[global] Instance outcome_ret : MRet outcome := fun _ a => Done a.

#[global] Instance outcome_bind : MBind outcome := fun _ _ k m =>
  match m with
  | Done a => k a
  | Raised e => Raised e
  end.

(** The keys the script reads from a design's mapping. *)
Record details : Type := {
  quantity : option Z;
  material : option string;
  laminate : option string;
  size_inches : option Q;
  resale_price : option Q
}.

(** [for key, value in source.items(): if key not in design_details: ...] *)
Definition fill (design_details source : details) : details :=
  {| quantity := match quantity design_details with
                 | Some v => Some v
                 | None => quantity source
                 end;
     material := match material design_details with
                 | Some v => Some v
                 | None => material source
                 end;
     laminate := match laminate design_details with
                 | Some v => Some v
                 | None => laminate source
                 end;
     size_inches := match size_inches design_details with
                    | Some v => Some v
                    | None => size_inches source
                    end;
     resale_price := match resale_price design_details with
                     | Some v => Some v
                     | None => resale_price source
                     end |}.

(** [design_details[key]] *)
Definition get {A : Type} (key : string) (value : option A) : outcome A :=
  match value with
  | Some v => Done v
  | None => Raised (KeyError key)
  end.

Record price_item : Type := {
  size : Q;
  price : Q
}.

(** The loop over [price_config["sizes"]]: it has no [break]. *)
Definition lookup_price (sizes : list price_item) (size_inches : Q)
    (quantity : Z) : Q :=
  foldl (fun found item =>
           if Qeq_bool size_inches (size item)
           then float_mul (price item) (inject_Z quantity)
           else found)
        0%Q sizes.

Record row : Type := {
  row_name : string;
  row_quantity : Z;
  row_material : string;
  row_laminate : string;
  row_size : Q
}.

Record totals : Type := {
  rows : list row;
  total_price : Q;
  total_quantity : Z;
  total_resale_value : Q
}.

Definition start : totals :=
  {| rows := []; total_price := 0; total_quantity := 0;
     total_resale_value := 0 |}.

Section Run.
(** The settings of the order file, the price table, and the cached
    [<name>_info.yaml] of the designs that have one. *)
Variable settings : details.
Variable prices : list price_item.
Variable info : string -> option details.

Definition add_design (t : totals) (design_name : string)
    (design_details : details) : outcome totals :=
  let design_details :=
    match info design_name with
    | Some cached_values => fill design_details cached_values
    | None => design_details
    end in
  let design_details := fill design_details settings in
  quantity ← get "quantity" (quantity design_details);
  material ← get "material" (material design_details);
  laminate ← get "laminate" (laminate design_details);
  size_inches ← get "size_inches" (size_inches design_details);
  resale_price ← get "resale_price" (resale_price design_details);
  let price := lookup_price prices size_inches quantity in
  mret {| rows := rows t ++ [{| row_name := design_name;
                                row_quantity := quantity;
                                row_material := material;
                                row_laminate := laminate;
                                row_size := size_inches |}];
          total_price := float_add (total_price t) price;
          total_quantity := (total_quantity t + quantity)%Z;
          total_resale_value :=
            float_add (total_resale_value t)
              (float_mul resale_price (inject_Z quantity)) |}.

(** [for design_name, design_details in sorted(order_list.items())] *)
Definition process_order (order_list : list (string * details))
    : outcome totals :=
  foldl (fun acc item => t ← acc; add_design t item.1 item.2) (Done start)
    (sorted_by (fun a b => String.leb a.1 b.1) order_list).
End Run.

Record summary : Type := {
  total_designs : nat;
  price_per_sticker : Q;
  min_sale_amount : Z;
  potential_profit : Q
}.

(** [x / y] on floats, and on a float and an integer. *)
Definition divide (x y : Q) : outcome Q :=
  if Qeq_bool y 0 then Raised ZeroDivisionError else Done (round (x / y)).

Definition summarize (designs : nat) (t : totals) : outcome summary :=
  price_per_sticker ←
    divide (total_resale_value t) (inject_Z (total_quantity t));
  sales ← divide (total_price t) price_per_sticker;
  mret {| total_designs := designs;
          price_per_sticker := price_per_sticker;
          min_sale_amount := (int_of_float sales + 1)%Z;
          potential_profit :=
            float_sub (total_resale_value t) (total_price t) |}.

(** The body of [main] after the files are read. *)
Definition order_text (include_summary : bool) (settings : details)
    (prices : list price_item) (info : string -> option details)
    (order_list : list (string * details))
    : outcome (totals * option summary) :=
  t ← process_order settings prices info order_list;
  if include_summary then
    s ← summarize (length order_list) t; mret (t, Some s)
  else mret (t, None).

(** *** The path of the price table

    [prices_path] starts as [None], becomes the string given with
    [--prices], and becomes a [Path] only when the settings name a
    [prices_config]; [is_absolute] is then called on whatever it is. *)

Inductive path_value : Type :=
| NoPath
| StrPath (p : string)
| PathObject (p : string).

Definition is_absolute (p : string) : bool := String.prefix "/" p.

Definition resolve_prices_path (prices_option : option string)
    (prices_config : option string) (config_parent : string)
    : outcome string :=
  let prices_path :=
    match prices_option with
    | Some p => StrPath p
    | None => NoPath
    end in
  let prices_path :=
    match prices_config with
    | Some p => PathObject p
    | None => prices_path
    end in
  match prices_path with
  | PathObject p =>
      if is_absolute p then Done p
      else Done (config_parent ++ "/" ++ p)%string
  | StrPath _ | NoPath => Raised AttributeError
  end.

End Order.

(** ** A sample order

    Two designs at the prices of a two-line table; [cat] leaves everything
    to its cached info file and to the settings. *)

Module OrderSample.

Definition settings : Order.details :=
  {| Order.quantity := Some 10%Z;
     Order.material := Some "vinyl";
     Order.laminate := Some "matte";
     Order.size_inches := None;
     Order.resale_price := Some 3%Q |}.

Definition prices : list Order.price_item :=
  [{| Order.size := 3; Order.price := 1 # 2 |};
   {| Order.size := 4; Order.price := 3 # 4 |}].

Definition unset : Order.details :=
  {| Order.quantity := None; Order.material := None;
     Order.laminate := None; Order.size_inches := None;
     Order.resale_price := None |}.

Definition info (design_name : string) : option Order.details :=
  if String.eqb design_name "cat"
  then Some {| Order.quantity := None; Order.material := None;
               Order.laminate := None; Order.size_inches := Some 3%Q;
               Order.resale_price := None |}
  else None.

Definition dog : Order.details :=
  {| Order.quantity := Some 5%Z; Order.material := None;
     Order.laminate := Some "gloss"; Order.size_inches := Some 4%Q;
     Order.resale_price := None |}.

Definition order_list : list (string * Order.details) :=
  [("dog", dog); ("cat", unset)].

Definition processed : Order.totals :=
  match Order.process_order settings prices info order_list with
  | Order.Done t => t
  | Order.Raised _ => Order.start
  end.

(** Nine stickers bought at 0.13 and resold at 0.39 each: an order on
    which the rounding of the float operations decides the minimum sell
    amount. *)
Definition thin_settings : Order.details :=
  {| Order.quantity := Some 9%Z;
     Order.material := Some "vinyl";
     Order.laminate := Some "matte";
     Order.size_inches := Some 3%Q;
     Order.resale_price := Some (round (39 # 100)) |}.

Definition thin_prices : list Order.price_item :=
  [{| Order.size := 3; Order.price := round (13 # 100) |}].

Definition thin : Order.totals :=
  match Order.process_order thin_settings thin_prices (fun _ => None)
          [("dot", unset)] with
  | Order.Done t => t
  | Order.Raised _ => Order.start
  end.

End OrderSample.

(** * Properties *)

(** ** Float arithmetic *)


Lemma nearest_even_ge (m : Z) (x : Q) :
  (inject_Z m <= x)%Q -> (m <= nearest_even x)%Z.
Proof.
  intros H. assert (m <= Qfloor x)%Z as Hf.
  { rewrite <- (Qfloor_Z m). by apply Qfloor_resp_le. }
  unfold nearest_even.
  destruct (x - inject_Z (Qfloor x) ?= 1 # 2)%Q; [|lia|lia].
  destruct (Z.even (Qfloor x)); lia.
Qed.

Lemma pow2_pos (e : Z) : (0 < 2 ^ e)%Q.
Proof. by apply Qpower_0_lt. Qed.

Lemma pow2_succ (e : Z) : (2 ^ (e + 1) == 2 * 2 ^ e)%Q.
Proof. rewrite Qpower_plus by done. rewrite Qpower_1_r. ring. Qed.

Lemma log2_bounds (n : Z) :
  (0 < n)%Z ->
  (2 ^ Z.log2 n <= inject_Z n)%Q /\ (inject_Z n < 2 ^ (Z.log2 n + 1))%Q.
Proof.
  intros Hn. destruct (Z.log2_spec n Hn) as [Hlo Hhi].
  pose proof (Z.log2_nonneg n) as H0.
  change 2%Q with (inject_Z 2). split.
  - rewrite <- Zpower_Qpower by done. by rewrite <- Zle_Qle.
  - rewrite <- Zpower_Qpower by lia. rewrite <- Zlt_Qlt.
    by replace (Z.log2 n + 1)%Z with (Z.succ (Z.log2 n)) by lia.
Qed.

Lemma exponent_spec (x : Q) :
  (0 < x)%Q ->
  (2 ^ (exponent x + 52) <= x)%Q /\ (x < 2 ^ (exponent x + 53))%Q.
Proof.
  intros Hx. destruct x as [n d].
  assert (0 < n)%Z as Hn by (unfold Qlt in Hx; simpl in Hx; lia).
  destruct (log2_bounds n Hn) as [Hn1 Hn2].
  destruct (log2_bounds (Z.pos d) ltac:(lia)) as [Hd1 Hd2].
  set (ln := Z.log2 n) in *. set (ld := Z.log2 (Z.pos d)) in *.
  assert (n # d == inject_Z n / inject_Z (Z.pos d))%Q as Ex
    by apply Qmake_Qdiv.
  assert (0 < inject_Z (Z.pos d))%Q as Hdpos by reflexivity.
  assert (2 ^ (ln - ld - 1) < n # d)%Q as Hlow.
  { rewrite Ex. apply Qlt_shift_div_l; [done|].
    apply Qlt_le_trans with (2 ^ (ln - ld - 1) * 2 ^ (ld + 1))%Q.
    - apply Qmult_lt_l; [apply pow2_pos|done].
    - rewrite <- Qpower_plus by done.
      by replace (ln - ld - 1 + (ld + 1))%Z with ln by lia. }
  assert (n # d < 2 ^ (ln - ld + 1))%Q as Hhigh.
  { rewrite Ex. apply Qlt_shift_div_r; [done|].
    apply Qlt_le_trans with (2 ^ (ln + 1))%Q; [done|].
    replace (ln + 1)%Z with (ln - ld + 1 + ld)%Z by lia.
    rewrite Qpower_plus by done.
    apply Qmult_le_l; [apply pow2_pos|done]. }
  unfold exponent. simpl Qnum. simpl Qden. fold ln ld.
  destruct (Qle_bool (2 ^ (ln - ld - 52 + 52)) (n # d)) eqn:E.
  - apply Qle_bool_iff in E. split; [done|].
    by replace (ln - ld - 52 + 53)%Z with (ln - ld + 1)%Z by lia.
  - assert (n # d < 2 ^ (ln - ld - 52 + 52))%Q as Hlt.
    { apply Qnot_le_lt. intros H. apply Qle_bool_iff in H. congruence. }
    split.
    + apply Qlt_le_weak.
      by replace (ln - ld - 52 - 1 + 52)%Z with (ln - ld - 1)%Z by lia.
    + by replace (ln - ld - 52 - 1 + 53)%Z with (ln - ld - 52 + 52)%Z by lia.
Qed.

Lemma exponent_monotone (x y : Q) :
  (0 < x)%Q -> (x <= y)%Q -> (exponent x <= exponent y)%Z.
Proof.
  intros Hx Hxy.
  destruct (exponent_spec x Hx) as [Hx1 _].
  destruct (exponent_spec y) as [_ Hy2]; [by eapply Qlt_le_trans|].
  assert (2 ^ (exponent x + 52) < 2 ^ (exponent y + 53))%Q as H.
  { eapply Qle_lt_trans; [exact Hx1|]. by eapply Qle_lt_trans. }
  apply Qpower_lt_compat_l_inv in H; [lia|done].
Qed.

Lemma round_positive_ge (x : Q) :
  (0 < x)%Q -> (2 ^ (exponent x + 52) <= round_positive x)%Q.
Proof.
  intros Hx. destruct (exponent_spec x Hx) as [H1 _]. unfold round_positive.
  rewrite Z.add_comm, Qpower_plus by done.
  apply Qmult_le_compat_r; [|apply Qlt_le_weak, pow2_pos].
  change 2%Q with (inject_Z 2) at 1. rewrite <- Zpower_Qpower by lia.
  rewrite <- Zle_Qle. apply nearest_even_ge.
  rewrite Zpower_Qpower by lia. apply Qle_shift_div_l; [apply pow2_pos|].
  change (inject_Z 2) with 2%Q. rewrite <- Qpower_plus by done.
  by rewrite Z.add_comm.
Qed.

Lemma round_positive_pos (x : Q) : (0 < x)%Q -> (0 < round_positive x)%Q.
Proof.
  intros Hx. eapply Qlt_le_trans; [|by apply round_positive_ge].
  apply pow2_pos.
Qed.

(** A float below [x] is below the float [x] is rounded to. *)
Lemma round_positive_ge_float (k x : Q) :
  (0 < k)%Q -> (round_positive k == k)%Q -> (k <= x)%Q ->
  (k <= round_positive x)%Q.
Proof.
  intros Hk Ek Hkx. assert (0 < x)%Q as Hx by by eapply Qlt_le_trans.
  pose proof (exponent_monotone k x Hk Hkx) as He.
  destruct (Z.eq_dec (exponent k) (exponent x)) as [Heq|Hne].
  - rewrite <- Ek at 1. unfold round_positive. rewrite Heq.
    apply Qmult_le_compat_r; [|apply Qlt_le_weak, pow2_pos].
    rewrite <- Zle_Qle. apply nearest_even_ge.
    apply Qle_shift_div_l; [apply pow2_pos|].
    rewrite <- Heq. fold (round_positive k). by rewrite Ek.
  - destruct (exponent_spec k Hk) as [_ Hk2].
    apply Qlt_le_weak. eapply Qlt_le_trans; [exact Hk2|].
    eapply Qle_trans; [|by apply round_positive_ge].
    apply Qpower_le_compat_l; [lia|done].
Qed.

Lemma round_0 : round 0 = 0%Q.
Proof. reflexivity. Qed.

Lemma round_pos (x : Q) : (0 < x)%Q -> (0 < round x)%Q.
Proof.
  intros Hx. unfold round. rewrite Qred_correct.
  rewrite (proj1 (Qgt_alt x 0)) by done. by apply round_positive_pos.
Qed.

Lemma round_neg (x : Q) : (x < 0)%Q -> (round x < 0)%Q.
Proof.
  intros Hx. unfold round. rewrite Qred_correct.
  rewrite (proj1 (Qlt_alt x 0)) by done.
  assert (0 < - x)%Q as H by (apply (Qopp_lt_compat x 0); done).
  apply round_positive_pos in H. apply (Qopp_lt_compat 0) in H. exact H.
Qed.

Lemma round_zero_iff (x : Q) : (round x == 0)%Q <-> (x == 0)%Q.
Proof.
  split; intros H.
  - destruct (Q_dec x 0) as [[Hlt|Hgt]|Heq]; [| |done].
    + apply round_neg in Hlt. rewrite H in Hlt. by apply Qlt_irrefl in Hlt.
    + apply round_pos in Hgt. rewrite H in Hgt. by apply Qlt_irrefl in Hgt.
  - unfold round. rewrite Qred_correct.
    by rewrite (proj1 (Qeq_alt x 0)) by done.
Qed.

Lemma round_nonneg (x : Q) : (0 <= x)%Q -> (0 <= round x)%Q.
Proof.
  intros Hx. apply Qle_lteq in Hx as [Hx|Hx].
  - by apply Qlt_le_weak, round_pos.
  - symmetry in Hx. apply round_zero_iff in Hx. rewrite Hx. apply Qle_refl.
Qed.

Lemma round_ge_float (k x : Q) :
  (0 <= k)%Q -> is_float k -> (k <= x)%Q -> (k <= round x)%Q.
Proof.
  unfold is_float. intros Hk Ek Hkx. apply Qle_lteq in Hk as [Hk|Hk].
  - assert (0 < x)%Q as Hx by by eapply Qlt_le_trans.
    revert Ek. unfold round. rewrite !Qred_correct.
    rewrite (proj1 (Qgt_alt k 0)), (proj1 (Qgt_alt x 0)) by done.
    intros Ek. by apply round_positive_ge_float.
  - rewrite <- Hk. apply round_nonneg. by rewrite Hk.
Qed.

Lemma nearest_even_int (x : Q) (m : Z) :
  (x == inject_Z m)%Q -> nearest_even x = m.
Proof.
  intros E. unfold nearest_even. rewrite (Qfloor_comp _ _ E), Qfloor_Z.
  assert (x - inject_Z m == 0)%Q as E0 by (rewrite E; ring).
  assert ((x - inject_Z m ?= 1 # 2)%Q = Lt) as ->; [|done].
  apply Qlt_alt. by rewrite E0.
Qed.

(** Integers below [2 ^ 53] are floats. *)
Lemma is_float_int (k : Z) : (0 <= k < 2 ^ 53)%Z -> is_float (inject_Z k).
Proof.
  intros [Hk0 Hk]. unfold is_float.
  destruct (Z.eq_dec k 0%Z) as [->|Hne]; [reflexivity|].
  assert (0 < inject_Z k)%Q as Hpos.
  { change 0%Q with (inject_Z 0). rewrite <- Zlt_Qlt. lia. }
  unfold round. rewrite Qred_correct, (proj1 (Qgt_alt _ _) Hpos).
  destruct (exponent_spec _ Hpos) as [Hlo _].
  set (e := exponent (inject_Z k)) in *.
  assert (e <= 0)%Z as He.
  { assert (2 ^ (e + 52) < 2 ^ 53)%Q as H.
    { eapply Qle_lt_trans; [exact Hlo|].
      change 2%Q with (inject_Z 2). rewrite <- Zpower_Qpower by lia.
      by rewrite <- Zlt_Qlt. }
    apply Qpower_lt_compat_l_inv in H; [lia|done]. }
  unfold round_positive. fold e.
  assert (inject_Z k / 2 ^ e == inject_Z (k * 2 ^ (- e)))%Q as E.
  { rewrite inject_Z_mult, Zpower_Qpower by lia.
    change (inject_Z 2) with 2%Q. rewrite Qpower_opp.
    unfold Qdiv. reflexivity. }
  rewrite (nearest_even_int _ _ E), inject_Z_mult, Zpower_Qpower by lia.
  change (inject_Z 2) with 2%Q. rewrite Qpower_opp. field.
  apply Qpower_not_0. discriminate.
Qed.

Lemma int_of_float_floor (x : Q) :
  (0 <= x)%Q ->
  (inject_Z (int_of_float x) <= x)%Q
  /\ (x < inject_Z (int_of_float x + 1))%Q.
Proof.
  destruct x as [num den]. unfold Qle, Qlt, int_of_float, inject_Z. simpl.
  intros H. assert (0 <= num)%Z as Hnum by lia.
  rewrite Z.quot_div_nonneg by lia.
  pose proof (Z.mul_div_le num (Z.pos den) ltac:(lia)).
  pose proof (Z.mul_succ_div_gt num (Z.pos den) ltac:(lia)).
  lia.
Qed.

Lemma int_of_float_ge (k : Z) (x : Q) :
  (0 <= k)%Z -> (inject_Z k <= x)%Q -> (k <= int_of_float x)%Z.
Proof.
  intros Hk Hx. assert (0 <= x)%Q as H0.
  { eapply Qle_trans; [|exact Hx]. change 0%Q with (inject_Z 0).
    by rewrite <- Zle_Qle. }
  destruct (int_of_float_floor x H0) as [_ Hhi].
  assert (inject_Z k < inject_Z (int_of_float x + 1))%Q as H
    by (by eapply Qle_lt_trans).
  rewrite <- Zlt_Qlt in H. lia.
Qed.


(** ** Sorting *)

Section StableSortFacts.
Context {A : Type} (leb : A -> A -> bool).
Hypothesis leb_total : forall a b, leb a b = true \/ leb b a = true.
Hypothesis leb_trans :
  forall a b c, leb a b = true -> leb b c = true -> leb a c = true.

Lemma insert_by_perm (x : A) (l : list A) : insert_by leb x l ≡ₚ x :: l.
Proof.
  induction l as [|y l IH]; simpl; [done|].
  destruct (leb x y); [done|].
  rewrite IH. apply Permutation_swap.
Qed.

Lemma sorted_by_perm (l : list A) : sorted_by leb l ≡ₚ l.
Proof.
  induction l as [|x l IH]; simpl; [done|].
  rewrite insert_by_perm. by rewrite IH.
Qed.

Lemma insert_by_sorted (x : A) (l : list A) :
  StronglySorted (fun a b => leb a b = true) l ->
  StronglySorted (fun a b => leb a b = true) (insert_by leb x l).
Proof.
  induction 1 as [|y l Hl IH Hy]; simpl.
  - repeat constructor.
  - destruct (leb x y) eqn:E.
    + constructor; [by constructor|].
      constructor; [done|].
      eapply Forall_impl; [exact Hy|]. intros z Hz. by eapply leb_trans.
    + constructor; [done|].
      rewrite insert_by_perm. constructor; [|done].
      destruct (leb_total x y); congruence.
Qed.

Lemma sorted_by_sorted (l : list A) :
  StronglySorted (fun a b => leb a b = true) (sorted_by leb l).
Proof.
  induction l; simpl; [constructor|]. by apply insert_by_sorted.
Qed.

(** Stability at the head: the first element of the result is the first
    element of the input that no element precedes strictly. *)
Lemma sorted_by_head (l : list A) (x : A) (rest : list A) :
  sorted_by leb l = x :: rest ->
  exists pre post,
    l = pre ++ x :: post
    /\ Forall (fun y => leb y x = false) pre
    /\ Forall (fun y => leb x y = true) post.
Proof.
  revert x rest. induction l as [|a l IH]; intros x rest; simpl; [done|].
  destruct (sorted_by leb l) as [|y l'] eqn:E; simpl.
  - intros [= <- <-]. exists [], l. split; [done|]. split; [constructor|].
    assert (l = []) as -> by (apply Permutation_nil; rewrite <- E;
                               apply sorted_by_perm).
    constructor.
  - destruct (IH y l' eq_refl) as (pre & post & -> & Hpre & Hpost).
    destruct (leb a y) eqn:Ea.
    + intros [= <- <-]. exists [], (pre ++ y :: post).
      split; [done|]. split; [constructor|].
      assert (Hs := sorted_by_sorted (pre ++ y :: post)).
      rewrite E in Hs. apply StronglySorted_inv in Hs as [_ Hs].
      assert (Forall (fun z => leb a z = true) (y :: l')) as Hall.
      { constructor; [done|]. eapply Forall_impl; [exact Hs|].
        intros z Hz. by eapply leb_trans. }
      rewrite <- E in Hall. by rewrite sorted_by_perm in Hall.
    + intros [= <- <-]. exists (a :: pre), post.
      split; [done|]. split; [|done]. by constructor.
Qed.
End StableSortFacts.

(** ** Size selection *)

Lemma Qltb_lt (x y : Q) : Qltb x y = true <-> (x < y)%Q.
Proof.
  unfold Qltb. rewrite negb_true_iff. split.
  - intros H. apply Qnot_le_lt. intros Hle.
    apply Qle_bool_iff in Hle. congruence.
  - intros H. destruct (Qle_bool y x) eqn:E; [|reflexivity].
    apply Qle_bool_iff in E. exfalso. exact (Qlt_not_le _ _ H E).
Qed.

Lemma Qltb_ge (x y : Q) : Qltb x y = false <-> (y <= x)%Q.
Proof.
  unfold Qltb. rewrite negb_false_iff. apply Qle_bool_iff.
Qed.

Lemma Qle_bool_total (a b : Q) : Qle_bool a b = true \/ Qle_bool b a = true.
Proof.
  rewrite !Qle_bool_iff. destruct (Qlt_le_dec a b) as [H|H]; [|by right].
  left. by apply Qlt_le_weak.
Qed.

Lemma Qle_bool_trans (a b c : Q) :
  Qle_bool a b = true -> Qle_bool b c = true -> Qle_bool a c = true.
Proof. rewrite !Qle_bool_iff. apply Qle_trans. Qed.

Lemma first_larger_sorted (size : Q) (l : list Q) :
  StronglySorted (fun a b => Qle_bool a b = true) l ->
  match first_larger size l with
  | Ok s => In s l /\ (size < s)%Q
            /\ forall y, In y l -> (size < y)%Q -> (s <= y)%Q
  | Raise e => e = ValueError /\ forall y, In y l -> (y <= size)%Q
  end.
Proof.
  induction 1 as [|x l Hl IH Hx]; simpl.
  - split; [done|]. intros y [].
  - destruct (Qltb size x) eqn:E.
    + apply Qltb_lt in E. split; [by left|]. split; [done|].
      intros y [<-|Hy] _; [apply Qle_refl|].
      rewrite Forall_forall in Hx. apply Qle_bool_iff, Hx.
      by apply list_elem_of_In.
    + apply Qltb_ge in E. destruct (first_larger size l) as [s|e].
      * destruct IH as (Hin & Hlt & Hmin). split; [by right|]. split; [done|].
        intros y [<-|Hy] Hy'; [|by apply Hmin].
        exfalso. exact (Qlt_not_le _ _ Hy' E).
      * destruct IH as [-> IH]. split; [done|].
        intros y [<-|Hy]; [done|]. by apply IH.
Qed.

(** C3. [find_smallest_size] returns an entry of the list that is strictly
    greater than [size] and no greater than any other such entry; it raises
    [ValueError] exactly when no entry is strictly greater than [size]. An
    entry equal to [size] is therefore never returned. *)
Theorem find_smallest_size_spec (size : Q) (size_list : list Q) :
  match find_smallest_size size size_list with
  | Ok s =>
      In s size_list /\ (size < s)%Q
      /\ forall y, In y size_list -> (size < y)%Q -> (s <= y)%Q
  | Raise e =>
      e = ValueError /\ forall y, In y size_list -> ~ (size < y)%Q
  end.
Proof.
  unfold find_smallest_size.
  pose proof (first_larger_sorted size (sorted_by Qle_bool size_list)
                (sorted_by_sorted Qle_bool Qle_bool_total Qle_bool_trans
                   size_list)) as H.
  assert (forall y, In y (sorted_by Qle_bool size_list) <-> In y size_list)
    as Hin.
  { intros y. rewrite <- !list_elem_of_In.
    by rewrite (sorted_by_perm Qle_bool size_list). }
  destruct (first_larger size (sorted_by Qle_bool size_list)) as [s|e].
  - destruct H as (H1 & H2 & H3). split; [by apply Hin|]. split; [done|].
    intros y Hy. apply H3. by apply Hin.
  - destruct H as [-> H]. split; [done|].
    intros y Hy Hlt. apply Hin, H in Hy. exact (Qlt_not_le _ _ Hlt Hy).
Qed.

Example find_smallest_size_fits :
  find_smallest_size (5 # 2) [1; 2; 3; 4]%Q = Ok 3%Q.
Proof. reflexivity. Qed.

Example find_smallest_size_exact :
  find_smallest_size 4 [1; 2; 3; 4]%Q = Raise ValueError.
Proof. reflexivity. Qed.

(** ** Arrays, pointwise *)

Lemma forall2b_Forall2 {A B : Type} (f : A -> B -> bool) (l : list A)
    (k : list B) :
  forall2b f l k = true <-> Forall2 (fun x y => f x y = true) l k.
Proof.
  revert k. induction l as [|x l IH]; intros [|y k]; simpl.
  - split; [constructor|done].
  - split; [done|inversion 1].
  - split; [done|inversion 1].
  - rewrite andb_true_iff, IH. split.
    + intros [??]. by constructor.
    + by inversion 1.
Qed.

Lemma grid_forall2b {A B : Type} (f : A -> B -> bool) (a : grid A)
    (b : grid B) :
  forall2b (forall2b f) a b = true ->
  Forall2 (Forall2 (fun x y => f x y = true)) a b.
Proof.
  rewrite forall2b_Forall2. intros H. eapply Forall2_impl; [exact H|].
  intros row row'. by rewrite forall2b_Forall2.
Qed.

Lemma pixel_at_grid_map {A B : Type} (f : A -> B) (m : grid A) (r c : nat) :
  pixel_at (grid_map f m) r c = f <$> pixel_at m r c.
Proof.
  unfold pixel_at, grid_map. rewrite list_lookup_fmap.
  destruct (m !! r) as [row|]; simpl; [|done]. by rewrite list_lookup_fmap.
Qed.

Lemma pixel_at_Forall2 {A B : Type} (P : A -> B -> Prop) (a : grid A)
    (b : grid B) (r c : nat) (x : A) :
  Forall2 (Forall2 P) a b ->
  pixel_at a r c = Some x ->
  exists y, pixel_at b r c = Some y /\ P x y.
Proof.
  unfold pixel_at. intros H Hx.
  destruct (a !! r) as [row|] eqn:Er; simpl in Hx; [|done].
  destruct (Forall2_lookup_l _ _ _ _ _ H Er) as (row' & -> & Hrow).
  simpl. destruct (Forall2_lookup_l _ _ _ _ _ Hrow Hx) as (y & -> & Hy).
  eauto.
Qed.

Lemma grid_map_Forall2 {A B : Type} (g : B -> A) (a : grid A) (b : grid B) :
  Forall2 (Forall2 (fun x y => g y = x)) a b -> grid_map g b = a.
Proof.
  unfold grid_map. induction 1 as [|row row' a b Hrow _ IH]; simpl; [done|].
  f_equal; [|done]. clear IH. induction Hrow; simpl; [done|]. by f_equal.
Qed.

(** ** Expansion *)

Lemma keeps_sign_phi (mask : grid bool) (sd : grid Q) :
  keeps_sign (phi mask) sd = true ->
  Forall2 (Forall2 (fun (b : bool) d =>
    if b then (d < 0)%Q else (0 < d)%Q)) mask sd.
Proof.
  intros H. apply grid_forall2b in H. unfold phi, grid_map in H.
  rewrite Forall2_fmap_l in H. eapply Forall2_impl; [exact H|].
  intros row row' Hrow. simpl in Hrow. rewrite Forall2_fmap_l in Hrow.
  eapply Forall2_impl; [exact Hrow|]. intros b d. simpl.
  rewrite andb_true_iff. intros [H1 H2]. destruct b.
  - apply Qltb_lt. destruct (Qltb (- (1 # 2)) 0) eqn:E; [done|].
    by vm_compute in E.
  - apply Qltb_lt. destruct (Qltb 0 (1 # 2)) eqn:E; [done|].
    by vm_compute in E.
Qed.

(** C7. Whenever the solver returns a field with the sign of [phi],
    expanding a mask by distance 0 returns that very mask. *)
Theorem expand_edge_zero (distance : grid Q -> result (grid Q))
    (mask : grid bool) (sd : grid Q) :
  distance (phi mask) = Ok sd ->
  keeps_sign (phi mask) sd = true ->
  expand_edge distance mask 0 = Ok mask.
Proof.
  intros Hd Hs. unfold expand_edge. rewrite Hd. simpl. unfold mret, result_ret.
  f_equal. apply grid_map_Forall2.
  eapply Forall2_impl; [exact (keeps_sign_phi _ _ Hs)|].
  intros row row' Hrow. eapply Forall2_impl; [exact Hrow|].
  intros b d Hbd. simpl in Hbd. destruct b.
  - apply Qle_bool_iff. by apply Qlt_le_weak.
  - destruct (Qle_bool d 0) eqn:E; [|done].
    apply Qle_bool_iff in E. exfalso. exact (Qlt_not_le _ _ Hbd E).
Qed.

(** C8. Whenever the solver returns on a mask, both expansions return and
    every pixel on in the expansion by [d1] is on in the expansion by a
    larger [d2]. *)
Theorem expand_edge_monotone (distance : grid Q -> result (grid Q))
    (mask : grid bool) (sd : grid Q) (d1 d2 : Q) :
  (d1 < d2)%Q ->
  distance (phi mask) = Ok sd ->
  exists m1 m2,
    expand_edge distance mask d1 = Ok m1
    /\ expand_edge distance mask d2 = Ok m2
    /\ subset_mask m1 m2.
Proof.
  intros Hlt Hd. unfold expand_edge. rewrite Hd. simpl.
  eexists _, _. split; [done|]. split; [done|].
  intros r c. rewrite !pixel_at_grid_map.
  destruct (pixel_at sd r c) as [v|]; simpl; [|done].
  intros [= Hv]. f_equal. apply Qle_bool_iff in Hv. apply Qle_bool_iff.
  eapply Qle_trans; [exact Hv|]. by apply Qlt_le_weak.
Qed.

(** C7, as stated, fails on a mask with every pixel on: [phi] has no sign
    change, the solver raises [ValueError] as [skfmm.distance] does when
    there is no zero contour, and no mask is returned. *)
Lemma expand_edge_zero_opaque :
  pixel_at [[true; true]; [true; true]] 0 0 = Some true
  /\ expand_edge Reference.distance [[true; true]; [true; true]] 0
     = Raise ValueError.
Proof. split; reflexivity. Qed.

(** C8, as stated, fails on the same mask: for [d1 < d2] neither expansion
    exists, so there is no pair of expansions to compare. *)
Lemma expand_edge_monotone_opaque :
  (0 < 1)%Q
  /\ pixel_at [[true; true]; [true; true]] 0 0 = Some true
  /\ expand_edge Reference.distance [[true; true]; [true; true]] 0
     = Raise ValueError
  /\ expand_edge Reference.distance [[true; true]; [true; true]] 1
     = Raise ValueError.
Proof. repeat split; reflexivity. Qed.

Lemma expand_edge_superset (distance : grid Q -> result (grid Q))
    (mask out : grid bool) (sd : grid Q) (thickness : Q) :
  distance (phi mask) = Ok sd ->
  keeps_sign (phi mask) sd = true ->
  (0 <= thickness)%Q ->
  expand_edge distance mask thickness = Ok out ->
  subset_mask mask out.
Proof.
  intros Hd Hs Ht. unfold expand_edge. rewrite Hd. simpl. intros [= <-].
  intros r c Hon. rewrite pixel_at_grid_map.
  destruct (pixel_at_Forall2 _ _ _ _ _ _ (keeps_sign_phi _ _ Hs) Hon)
    as (d & -> & Hneg).
  simpl. f_equal. apply Qle_bool_iff.
  eapply Qle_trans; [|exact Ht]. by apply Qlt_le_weak.
Qed.

(** ** Regions *)

Lemma elem_of_find_cols (l c c' : nat) (row : list nat) :
  c' ∈ find_cols l c row <-> c <= c' /\ row !! (c' - c) = Some l.
Proof.
  revert c. induction row as [|x row IH]; intros c; simpl.
  - split; [by intros ?%elem_of_nil|by intros [_ ?]].
  - assert (c' ∈ find_cols l (S c) row
            <-> c < c' /\ (x :: row) !! (c' - c) = Some l) as Htail.
    { rewrite IH. split; intros [Hc H]; (split; [lia|]).
      - by replace (c' - c) with (S (c' - S c)) by lia.
      - by replace (c' - c) with (S (c' - S c)) in H by lia. }
    destruct (Nat.eqb_spec x l) as [->|Hx].
    + rewrite elem_of_cons, Htail. split.
      * intros [->|[? ?]]; [|split; [lia|done]].
        split; [lia|]. by rewrite Nat.sub_diag.
      * intros [Hc H]. destruct (decide (c' = c)) as [->|]; [by left|].
        right. split; [lia|done].
    + rewrite Htail. split; [intros [? ?]; split; [lia|done]|].
      intros [Hc H]. split; [|done].
      destruct (decide (c' = c)) as [->|]; [|lia].
      rewrite Nat.sub_diag in H. simpl in H. congruence.
Qed.

Lemma elem_of_find_coords (l r r' c' : nat) (m : grid nat) :
  (r', c') ∈ find_coords l r m <-> r <= r' /\ pixel_at m (r' - r) c' = Some l.
Proof.
  revert r. induction m as [|row m IH]; intros r; simpl.
  - split; [by intros ?%elem_of_nil|by intros [_ ?]].
  - rewrite elem_of_app, list_elem_of_fmap, IH. split.
    + intros [(c & [= -> ->] & Hc)|[Hr H]].
      * apply elem_of_find_cols in Hc as [_ Hc].
        split; [lia|]. rewrite Nat.sub_diag. unfold pixel_at. simpl.
        by rewrite Nat.sub_0_r in Hc.
      * split; [lia|]. by replace (r' - r) with (S (r' - S r)) by lia.
    + intros [Hr H]. destruct (decide (r' = r)) as [->|].
      * left. exists c'. split; [done|]. apply elem_of_find_cols.
        split; [lia|]. rewrite Nat.sub_diag in H. unfold pixel_at in H.
        simpl in H. by rewrite Nat.sub_0_r.
      * right. split; [lia|].
        by replace (r' - r) with (S (r' - S r)) in H by lia.
Qed.

Lemma elem_of_coords_at (l r c : nat) (m : grid nat) :
  (r, c) ∈ find_coords l 0 m <-> pixel_at m r c = Some l.
Proof.
  rewrite elem_of_find_coords, Nat.sub_0_r. split; [by intros [_ ?]|].
  intros H. split; [lia|done].
Qed.

Lemma max_label_ge (m : grid nat) (r c l : nat) :
  pixel_at m r c = Some l -> l <= max_label m.
Proof.
  unfold pixel_at, max_label. revert r.
  induction m as [|row m IH]; intros r; [done|].
  destruct r as [|r]; simpl.
  - intros H. transitivity (foldr Nat.max 0 row); [|lia].
    clear IH. revert c H. induction row as [|x row IH]; intros c; [done|].
    destruct c as [|c]; simpl.
    + intros [= ->]. lia.
    + intros H. apply IH in H. lia.
  - intros H. apply IH in H. lia.
Qed.

Lemma region_of_Some (lab : grid nat) (l : nat) (props : region) :
  region_of lab l = Some props ->
  region_label props = l
  /\ coords props = find_coords l 0 lab
  /\ coords props <> [].
Proof.
  unfold region_of. destruct (find_coords l 0 lab) as [|p cs] eqn:E; [done|].
  by intros [= <-].
Qed.

Lemma elem_of_regionprops (lab : grid nat) (props : region) :
  props ∈ regionprops lab ->
  region_label props <> 0
  /\ forall r c,
       (r, c) ∈ coords props <-> pixel_at lab r c = Some (region_label props).
Proof.
  unfold regionprops. rewrite list_elem_of_omap.
  intros (l & Hl%elem_of_seq & (<- & Hcs & _)%region_of_Some).
  split; [lia|]. intros r c. rewrite Hcs. apply elem_of_coords_at.
Qed.

Lemma regionprops_complete (lab : grid nat) (r c l : nat) :
  pixel_at lab r c = Some l -> l <> 0 ->
  exists props, props ∈ regionprops lab /\ region_label props = l.
Proof.
  intros H Hl. unfold regionprops.
  destruct (region_of lab l) as [props|] eqn:E.
  - exists props. split; [|by apply region_of_Some in E as [? _]].
    apply list_elem_of_omap. exists l. split; [|done].
    apply elem_of_seq. apply max_label_ge in H. lia.
  - unfold region_of in E. apply elem_of_coords_at in H.
    destruct (find_coords l 0 lab); [by apply elem_of_nil in H|done].
Qed.

Lemma seq_sorted (s n : nat) : StronglySorted lt (seq s n).
Proof.
  revert s. induction n as [|n IH]; intros s; simpl; constructor; [done|].
  apply Forall_forall. intros k Hk%elem_of_seq. lia.
Qed.

Lemma regionprops_sorted (lab : grid nat) :
  StronglySorted (fun a b => region_label a < region_label b)
    (regionprops lab).
Proof.
  unfold regionprops. generalize (seq_sorted 1 (max_label lab)).
  generalize (seq 1 (max_label lab)). intros ls.
  induction 1 as [|l ls Hls IH Hl]; simpl; [constructor|].
  destruct (region_of lab l) as [props|] eqn:E; [|done].
  constructor; [done|]. apply Forall_forall.
  intros props' (l' & Hl' & E')%list_elem_of_omap.
  apply region_of_Some in E as [-> _]. apply region_of_Some in E' as [-> _].
  rewrite Forall_forall in Hl. by apply Hl.
Qed.

(** ** Index assignment *)

Lemma pixel_at_set_pixel {A : Type} (m : grid A) (r c r' c' : nat) (v : A) :
  pixel_at (set_pixel m r c v) r' c'
  = if decide (r = r' /\ c = c') then (fun _ => v) <$> pixel_at m r' c'
    else pixel_at m r' c'.
Proof.
  unfold set_pixel, pixel_at.
  destruct (m !! r) as [row|] eqn:Er.
  - rewrite list_lookup_insert.
    destruct (decide (r = r' /\ r < length m)) as [[<- Hlt]|Hne].
    + rewrite Er. simpl. rewrite list_lookup_insert.
      destruct (decide (c = c' /\ c < length row)) as [[<- Hc]|Hne].
      * case_decide as Hd; [|by destruct Hd].
        destruct (lookup_lt_is_Some_2 row c Hc) as [x ->]. done.
      * case_decide as Hd; [|done]. destruct Hd as [_ <-].
        rewrite lookup_ge_None_2; [done|]. lia.
    + case_decide as Hd; [|done]. destruct Hd as [<- _]. exfalso. apply Hne.
      split; [done|]. by eapply lookup_lt_Some.
  - case_decide as Hd; [|done]. destruct Hd as [<- _]. by rewrite Er.
Qed.

Lemma pixel_at_foldl_set {A : Type} (m : grid A) (cs : list (nat * nat))
    (r c : nat) (v : A) :
  pixel_at (foldl (fun m p => set_pixel m p.1 p.2 v) m cs) r c
  = if decide ((r, c) ∈ cs) then (fun _ => v) <$> pixel_at m r c
    else pixel_at m r c.
Proof.
  revert m. induction cs as [|[r0 c0] cs IH]; intros m; cbn [foldl].
  - case_decide as Hd; [by apply elem_of_nil in Hd|done].
  - rewrite IH, pixel_at_set_pixel. cbn [fst snd].
    destruct (decide ((r, c) ∈ cs)) as [Hin|Hin];
      destruct (decide ((r, c) ∈ (r0, c0) :: cs)) as [Hin'|Hin'];
      destruct (decide (r0 = r /\ c0 = c)) as [[-> ->]|Hne];
      try done; try (by destruct (pixel_at m r c)); exfalso;
      first [ apply Hin'; by left
            | apply Hin'; by right
            | apply elem_of_cons in Hin' as [[= -> ->]|?];
              [by apply Hne|done] ].
Qed.

Lemma assign_coords_Ok {A : Type} (m : grid A) (cs : list (nat * nat))
    (v : A) :
  (forall p, p ∈ cs -> in_grid m p = true) ->
  exists m',
    assign_coords m cs v = Ok m'
    /\ forall r c,
         pixel_at m' r c
         = if decide ((r, c) ∈ cs) then (fun _ => v) <$> pixel_at m r c
           else pixel_at m r c.
Proof.
  intros Hin. unfold assign_coords.
  assert (forallb (in_grid m) cs = true) as ->.
  { apply forallb_forall. intros p Hp. by apply Hin, list_elem_of_In. }
  eexists. split; [done|]. intros r c. apply pixel_at_foldl_set.
Qed.

Lemma pixel_at_Forall2_r {A B : Type} (P : A -> B -> Prop) (a : grid A)
    (b : grid B) (r c : nat) (y : B) :
  Forall2 (Forall2 P) a b ->
  pixel_at b r c = Some y ->
  exists x, pixel_at a r c = Some x /\ P x y.
Proof.
  unfold pixel_at. intros H Hy.
  destruct (b !! r) as [row'|] eqn:Er; simpl in Hy; [|done].
  destruct (Forall2_lookup_r _ _ _ _ _ H Er) as (row & -> & Hrow).
  simpl. destruct (Forall2_lookup_r _ _ _ _ _ Hrow Hy) as (x & -> & Hx).
  eauto.
Qed.

Lemma pixel_at_Forall2_None {A B : Type} (P : A -> B -> Prop) (a : grid A)
    (b : grid B) (r c : nat) :
  Forall2 (Forall2 P) a b ->
  pixel_at b r c = None -> pixel_at a r c = None.
Proof.
  intros H Hb. destruct (pixel_at a r c) as [x|] eqn:Ea; [|done].
  destruct (pixel_at_Forall2 _ _ _ _ _ _ H Ea) as (y & Hy & _). congruence.
Qed.

(** ** Hole removal *)

Lemma clear_regions_Ok (m : grid bool) (rs : list region) :
  (forall props p, props ∈ rs -> p ∈ coords props -> in_grid m p = true) ->
  exists m',
    foldl (fun acc props =>
             outside_mask ← acc;
             assign_coords outside_mask (coords props) false) (Ok m) rs
    = Ok m'
    /\ forall r c,
         pixel_at m' r c
         = if decide (Exists (fun props => (r, c) ∈ coords props) rs)
           then (fun _ => false) <$> pixel_at m r c
           else pixel_at m r c.
Proof.
  revert m. induction rs as [|props rs IH]; intros m Hin; cbn [foldl].
  - exists m. split; [done|]. intros r c.
    case_decide as Hd; [by apply Exists_nil in Hd|done].
  - destruct (assign_coords_Ok m (coords props) false) as (m1 & Hm1 & Hpx).
    { intros p Hp. eapply Hin; [by left|done]. }
    cbn [mbind result_bind]. rewrite Hm1.
    destruct (IH m1) as (m' & Hm' & Hpx').
    { intros props' p Hprops' Hp. unfold in_grid. rewrite Hpx.
      assert (in_grid m p = true) as Hg by (eapply Hin; [by right|done]).
      unfold in_grid in Hg. destruct (pixel_at m p.1 p.2); [|done].
      by case_decide. }
    exists m'. split; [done|]. intros r c. rewrite Hpx', Hpx.
    destruct (decide (Exists (fun props0 => (r, c) ∈ coords props0) rs))
      as [Hex|Hex];
      destruct (decide ((r, c) ∈ coords props)) as [Hc|Hc];
      destruct (decide (Exists (fun props0 => (r, c) ∈ coords props0)
                          (props :: rs))) as [Hex'|Hex'];
      try done; try (by destruct (pixel_at m r c)); exfalso.
    + apply Hex'. by right.
    + apply Hex'. by right.
    + apply Hex'. by left.
    + apply Exists_cons in Hex' as [?|?]; done.
Qed.

Lemma sorted_labels_NoDup (rs : list region) :
  StronglySorted (fun a b => region_label a < region_label b) rs ->
  NoDup (region_label <$> rs).
Proof.
  induction 1 as [|props rs Hrs IH Hlt]; simpl; constructor; [|done].
  intros (props' & Heq & Hin)%list_elem_of_fmap.
  rewrite Forall_forall in Hlt. apply Hlt in Hin. lia.
Qed.

Lemma remove_holes_keeps_head (label : grid bool -> grid nat)
    (mask : grid bool) (keep : region) (others : list region) :
  labels_foreground mask (label mask) = true ->
  sorted_by larger_first (regionprops (label mask)) = keep :: others ->
  exists out,
    remove_holes label mask = Ok out
    /\ forall r c,
         pixel_at out r c
         = (fun l => bool_decide (l = region_label keep))
             <$> pixel_at (label mask) r c.
Proof.
  intros Hfg%grid_forall2b Hs. unfold remove_holes. cbv zeta. rewrite Hs.
  cbn [drop]. set (lab := label mask) in *.
  assert (keep :: others ≡ₚ regionprops lab) as Hperm.
  { rewrite <- Hs. apply sorted_by_perm. }
  assert (forall props, props ∈ others -> props ∈ regionprops lab) as Hsub.
  { intros props Hp. rewrite <- Hperm. by right. }
  assert (keep ∈ regionprops lab) as Hkeep.
  { rewrite <- Hperm. by left. }
  assert (forall props, props ∈ others ->
            region_label props <> region_label keep) as Hdistinct.
  { pose proof (sorted_labels_NoDup _ (regionprops_sorted lab)) as Hnd.
    rewrite <- Hperm in Hnd. simpl in Hnd. apply NoDup_cons in Hnd as [Hnd _].
    intros props Hp Heq. apply Hnd. rewrite <- Heq.
    apply list_elem_of_fmap. eauto. }
  destruct (clear_regions_Ok mask others) as (out & Hout & Hpx).
  { intros props [r c] Hp Hc. apply Hsub, elem_of_regionprops in Hp as [_ Hp].
    apply Hp in Hc.
    destruct (pixel_at_Forall2_r _ _ _ _ _ _ Hfg Hc) as (b & Hb & _).
    unfold in_grid. simpl. by rewrite Hb. }
  exists out. split; [done|]. intros r c. rewrite Hpx.
  destruct (pixel_at lab r c) as [l|] eqn:El.
  - destruct (pixel_at_Forall2_r _ _ _ _ _ _ Hfg El) as (b & -> & Hb).
    apply eqb_prop in Hb. subst b. simpl.
    apply elem_of_regionprops in Hkeep as [Hk0 Hkc].
    case_decide as Hex.
    + f_equal. symmetry. apply bool_decide_eq_false.
      apply Exists_exists in Hex as (props & Hp & Hc). intros ->.
      apply (Hdistinct props Hp).
      apply Hsub, elem_of_regionprops in Hp as [_ Hp].
      apply Hp in Hc. congruence.
    + f_equal. destruct (Nat.eqb_spec l 0) as [->|Hl]; simpl.
      * symmetry. by apply bool_decide_eq_false.
      * symmetry. apply bool_decide_eq_true.
        destruct (regionprops_complete lab r c l El Hl) as (props & Hp & <-).
        destruct (decide (region_label props = region_label keep))
          as [Heq|Hne]; [done|].
        exfalso. apply Hex, Exists_exists. exists props.
        assert (props ∈ others) as Hpo.
        { pose proof Hp as Hp'. rewrite <- Hperm in Hp'.
          apply elem_of_cons in Hp' as [->|?]; done. }
        split; [done|]. apply elem_of_regionprops in Hp as [_ Hp].
        by apply Hp.
  - rewrite (pixel_at_Forall2_None _ _ _ _ _ Hfg El). by case_decide.
Qed.

Lemma larger_first_spec (a b : region) :
  larger_first a b = true <-> num_pixels b <= num_pixels a.
Proof. unfold larger_first. rewrite Z.leb_le. lia. Qed.

Lemma larger_first_total (a b : region) :
  larger_first a b = true \/ larger_first b a = true.
Proof. rewrite !larger_first_spec. lia. Qed.

Lemma larger_first_trans (a b c : region) :
  larger_first a b = true -> larger_first b c = true ->
  larger_first a c = true.
Proof. rewrite !larger_first_spec. lia. Qed.

Lemma sorted_regions_nonempty (rs : list region) (props : region) :
  props ∈ rs ->
  exists keep others, sorted_by larger_first rs = keep :: others.
Proof.
  intros Hin. destruct (sorted_by larger_first rs) as [|keep others] eqn:E.
  - rewrite <- (sorted_by_perm larger_first rs), E in Hin.
    by apply elem_of_nil in Hin.
  - eauto.
Qed.

(** C5. When the labelling marks exactly the pixels that are on and finds at
    least one component, hole removal returns a mask whose on pixels are
    exactly the pixels of one component, and no component has more pixels
    than that one; every pixel of any other component is off. *)
Theorem remove_holes_keeps_largest (label : grid bool -> grid nat)
    (mask : grid bool) :
  labels_foreground mask (label mask) = true ->
  regionprops (label mask) <> [] ->
  exists keep out,
    keep ∈ regionprops (label mask)
    /\ (forall props, props ∈ regionprops (label mask) ->
          num_pixels props <= num_pixels keep)
    /\ remove_holes label mask = Ok out
    /\ forall r c,
         pixel_at out r c
         = (fun l => bool_decide (l = region_label keep))
             <$> pixel_at (label mask) r c.
Proof.
  intros Hfg Hne.
  destruct (regionprops (label mask)) as [|props0 rs0] eqn:Ers; [done|].
  destruct (sorted_regions_nonempty (props0 :: rs0) props0)
    as (keep & others & Hs); [by left|].
  rewrite <- Ers in *. clear Ers props0 rs0 Hne.
  destruct (remove_holes_keeps_head label mask keep others Hfg Hs)
    as (out & Hout & Hpx).
  pose proof (sorted_by_perm larger_first (regionprops (label mask))) as Hperm.
  pose proof (sorted_by_sorted larger_first larger_first_total
                larger_first_trans (regionprops (label mask))) as Hsorted.
  rewrite Hs in Hperm, Hsorted.
  apply StronglySorted_inv in Hsorted as [_ Hall].
  exists keep, out. split; [rewrite <- Hperm; by left|].
  split; [|done]. intros props Hp. rewrite <- Hperm in Hp.
  apply elem_of_cons in Hp as [->|Hp]; [done|].
  rewrite Forall_forall in Hall. by apply larger_first_spec, Hall.
Qed.

(** C10. The component kept by hole removal is the one of lowest label among
    those of maximal pixel count. *)
Theorem remove_holes_tie_break (label : grid bool -> grid nat)
    (mask : grid bool) (keep : region) :
  labels_foreground mask (label mask) = true ->
  keep ∈ regionprops (label mask) ->
  (forall props, props ∈ regionprops (label mask) ->
     num_pixels props <= num_pixels keep) ->
  (forall props, props ∈ regionprops (label mask) ->
     num_pixels props = num_pixels keep ->
     region_label keep <= region_label props) ->
  exists out,
    remove_holes label mask = Ok out
    /\ forall r c,
         pixel_at out r c
         = (fun l => bool_decide (l = region_label keep))
             <$> pixel_at (label mask) r c.
Proof.
  intros Hfg Hkeep Hmax Htie.
  destruct (sorted_regions_nonempty _ _ Hkeep) as (first & others & Hs).
  destruct (remove_holes_keeps_head label mask first others Hfg Hs)
    as (out & Hout & Hpx).
  exists out. split; [done|].
  enough (region_label first = region_label keep) as <- by done.
  destruct (sorted_by_head larger_first larger_first_total larger_first_trans
              _ _ _ Hs) as (pre & post & Hsplit & Hpre & Hpost).
  pose proof (regionprops_sorted (label mask)) as Hlab.
  rewrite Hsplit in Hkeep, Hlab.
  assert (first ∈ regionprops (label mask)) as Hfirst.
  { rewrite Hsplit. apply elem_of_app. right. by left. }
  apply elem_of_app in Hkeep as [Hin|Hin].
  - rewrite Forall_forall in Hpre. apply Hpre in Hin.
    apply Hmax in Hfirst.
    assert (larger_first keep first = true)
      by (by apply larger_first_spec). congruence.
  - apply elem_of_cons in Hin as [->|Hin]; [done|].
    rewrite Forall_forall in Hpost. pose proof (Hpost _ Hin) as Hle.
    apply larger_first_spec in Hle. pose proof (Hmax _ Hfirst) as Hge.
    pose proof (Htie _ Hfirst ltac:(lia)) as Hlow.
    apply StronglySorted_app_1_r, StronglySorted_inv in Hlab as [_ Hlab].
    rewrite Forall_forall in Hlab. apply Hlab in Hin. lia.
Qed.

(** ** The cut mask and the bleed mask *)

Lemma bind_Ok {A B : Type} (m : result A) (k : A -> result B) (b : B) :
  m ≫= k = Ok b -> exists a, m = Ok a /\ k a = Ok b.
Proof. destruct m as [a|e]; [|done]. intros H. by exists a. Qed.

(** C6. For a design whose geometry was computed, with a non-negative bleed
    thickness in pixels and a solver that keeps the sign of [phi] on the cut
    mask, every pixel on in [cut_mask] is on in [bleed_mask]. *)
Theorem cut_mask_subset_bleed_mask (distance : grid Q -> result (grid Q))
    (label : grid bool -> grid nat) (s : settings) (dpi : Q)
    (mask_image : image) (cut_mask cut_contour bleed_mask : grid bool) :
  cut_geometry distance label s dpi mask_image
    = Ok (cut_mask, cut_contour, bleed_mask) ->
  (forall sd, distance (phi cut_mask) = Ok sd ->
              keeps_sign (phi cut_mask) sd = true) ->
  (0 <= bleed_thickness s * dpi)%Q ->
  subset_mask cut_mask bleed_mask.
Proof.
  unfold cut_geometry. intros H Hsign Hbleed.
  apply bind_Ok in H as (expanded & _ & H).
  apply bind_Ok in H as (outside_mask & _ & H).
  apply bind_Ok in H as (expanded' & _ & H).
  apply bind_Ok in H as (bleed & Hexp & H).
  injection H as <- <- <-.
  pose proof Hexp as Hd. unfold expand_edge in Hd.
  apply bind_Ok in Hd as (sd & Hd & _).
  eapply expand_edge_superset; [exact Hd | by apply Hsign | | exact Hexp].
  by apply round_nonneg.
Qed.

(** ** Canvas fitting *)

Lemma length_slice {A : Type} (i j : nat) (l : list A) :
  j <= length l -> length (slice i j l) = j - i.
Proof. intros H. unfold slice. rewrite length_take, length_drop. lia. Qed.

Lemma is_square_intro {A : Type} (m : grid A) (n : nat) :
  length m = n -> Forall (fun row => length row = n) m -> is_square m n.
Proof.
  intros Hlen Hrows.
  assert (ncols m = n) as Hcols.
  { unfold ncols. destruct m as [|row m]; simpl in *; [done|].
    by apply Forall_cons in Hrows as [? _]. }
  split; [unfold shape, nrows; congruence|].
  unfold rectangular. by rewrite Hcols.
Qed.

Lemma adjust_image_size_square {A : Type} (matrix : grid A)
    (bbox : nat * nat * nat * nat) (target_size_px : Z) (pad_value : A) :
  contains_bbox matrix bbox ->
  (Z.of_nat bbox.1.2 <= target_size_px)%Z ->
  (Z.of_nat bbox.2 <= target_size_px)%Z ->
  exists out,
    adjust_image_size matrix bbox target_size_px pad_value = Ok out
    /\ is_square out (Z.to_nat target_size_px).
Proof.
  destruct bbox as [[[x y] w] h]. unfold contains_bbox. cbn [fst snd].
  intros (Hrect & Hx & Hy) Hw Hh. unfold adjust_image_size, numpy_pad.
  simpl fst. simpl snd.
  set (dx := (target_size_px - Z.of_nat w)%Z).
  set (dy := (target_size_px - Z.of_nat h)%Z).
  assert (0 <= dx `div` 2 <= dx)%Z as Hdx
    by (subst dx; Z.to_euclidean_division_equations; lia).
  assert (0 <= dy `div` 2 <= dy)%Z as Hdy
    by (subst dy; Z.to_euclidean_division_equations; lia).
  assert ((dy `div` 2 <? 0) || (dy - dy `div` 2 <? 0)
          || (dx `div` 2 <? 0) || (dx - dx `div` 2 <? 0) = false)%Z as ->.
  { rewrite !orb_false_iff, !Z.ltb_ge. lia. }
  eexists. split; [done|]. apply is_square_intro.
  - rewrite !length_app, !length_replicate.
    rewrite !length_fmap, length_slice
      by (unfold nrows in Hy; lia).
    subst dy. lia.
  - assert (Z.to_nat (dx `div` 2) + w + Z.to_nat (dx - dx `div` 2)
            = Z.to_nat target_size_px) as Hrow by (subst dx; lia).
    replace (w `min` (ncols matrix - x)) with w by lia.
    rewrite !Forall_app. split; [|split].
    + apply Forall_replicate. by rewrite length_replicate.
    + apply Forall_fmap, Forall_fmap, Forall_forall. intros row Hin.
      unfold compose.
      rewrite !length_app, !length_replicate, length_slice; [lia|].
      unfold slice in Hin. apply elem_of_take in Hin as (i & Hin & _).
      rewrite lookup_drop in Hin. apply list_elem_of_lookup_2 in Hin.
      unfold rectangular in Hrect. rewrite Forall_forall in Hrect.
      rewrite (Hrect _ Hin). lia.
    + apply Forall_replicate. by rewrite length_replicate.
Qed.

(** C9, as amended. When the bounding box lies inside each of the four
    buffers and its width and height are at most [target_size_px], every
    buffer is returned [target_size_px] by [target_size_px] pixels, the one
    [target_size_px] being passed to all four calls. *)
Theorem canvas_fit_uniform (color_image : image)
    (bleed_mask cut_mask cut_contour : grid bool)
    (bbox : nat * nat * nat * nat) (target_size_px : Z) :
  contains_bbox color_image bbox ->
  contains_bbox bleed_mask bbox ->
  contains_bbox cut_mask bbox ->
  contains_bbox cut_contour bbox ->
  (Z.of_nat bbox.1.2 <= target_size_px)%Z ->
  (Z.of_nat bbox.2 <= target_size_px)%Z ->
  exists color_image' bleed_mask' cut_mask' cut_contour',
    adjust_image_size color_image bbox target_size_px zero_pixel
      = Ok color_image'
    /\ adjust_image_size bleed_mask bbox target_size_px false
        = Ok bleed_mask'
    /\ adjust_image_size cut_mask bbox target_size_px false = Ok cut_mask'
    /\ adjust_image_size cut_contour bbox target_size_px false
        = Ok cut_contour'
    /\ is_square color_image' (Z.to_nat target_size_px)
    /\ is_square bleed_mask' (Z.to_nat target_size_px)
    /\ is_square cut_mask' (Z.to_nat target_size_px)
    /\ is_square cut_contour' (Z.to_nat target_size_px).
Proof.
  intros Hc Hb Hk Ho Hw Hh.
  destruct (adjust_image_size_square color_image bbox target_size_px
              zero_pixel Hc Hw Hh) as (c' & Ec & Sc).
  destruct (adjust_image_size_square bleed_mask bbox target_size_px
              false Hb Hw Hh) as (b' & Eb & Sb).
  destruct (adjust_image_size_square cut_mask bbox target_size_px
              false Hk Hw Hh) as (k' & Ek & Sk).
  destruct (adjust_image_size_square cut_contour bbox target_size_px
              false Ho Hw Hh) as (o' & Eo & So).
  exists c', b', k', o'. repeat (split; [assumption|]). assumption.
Qed.

(** C9, as stated, fails on a buffer smaller than the box: a 1 by 1 buffer
    with a 2 by 2 box and a target of 4 comes back 3 by 3. *)
Lemma adjust_image_size_small_buffer :
  (Z.of_nat 2 <= 4)%Z
  /\ exists out,
       adjust_image_size [[true]] (0, 0, 2, 2) 4 false = Ok out
       /\ shape out = (3, 3)
       /\ shape out <> (4, 4).
Proof.
  split; [lia|]. eexists. split; [reflexivity|]. split; [reflexivity|].
  discriminate.
Qed.

(** ** The loop over the designs *)

(** C1, as amended. An exception raised while one design is processed is
    not caught: [main] ends with that exception, having written the outputs
    of the designs before it and none for the designs after it. *)
Theorem main_stops_at_first_failure (distance : grid Q -> result (grid Q))
    (label : grid bool -> grid nat) (files : string -> option image)
    (s : settings) (design_name_list : list string)
    (before after : list (string * design_details))
    (design_name : string) (details : design_details) (e : exn) :
  (main distance label files s design_name_list before).2 = None ->
  selected design_name_list design_name = true ->
  process_design distance label files s design_name details = Raise e ->
  main distance label files s design_name_list
       (before ++ (design_name, details) :: after)
  = ((main distance label files s design_name_list before).1, Some e).
Proof.
  intros Hbefore Hsel Hraise.
  induction before as [|[name d] before IH]; simpl in *.
  - by rewrite Hsel, Hraise.
  - destruct (selected design_name_list name); [|by apply IH].
    destruct (process_design distance label files s name d) as [out|e'];
      [|done].
    destruct (main distance label files s design_name_list before)
      as [outs e'] eqn:E.
    simpl in *. by rewrite IH.
Qed.

(** C1, as stated, fails: with a design whose image file is missing listed
    before a design that processes without error, the run ends with the
    exception and the second design is never processed. *)
Lemma main_aborts_on_missing_image :
  process_design Reference.distance Reference.label Sample.files
    Sample.config "moon" (Sample.with_width 8) = Raise OSError
  /\ (exists out,
        process_design Reference.distance Reference.label Sample.files
          Sample.config "star" (Sample.with_width 8) = Ok out)
  /\ main Reference.distance Reference.label Sample.files Sample.config []
       [("moon", Sample.with_width 8); ("star", Sample.with_width 8)]
     = ([], Some OSError).
Proof.
  split; [vm_compute; reflexivity|]. split; [|vm_compute; reflexivity].
  eexists. vm_compute. reflexivity.
Qed.

Lemma main_stops_at_first_failure_witness :
  (main Reference.distance Reference.label Sample.files Sample.config []
     [("star", Sample.with_width 8)]).2 = None
  /\ selected [] "moon" = true
  /\ process_design Reference.distance Reference.label Sample.files
       Sample.config "moon" (Sample.with_width 8) = Raise OSError
  /\ main Reference.distance Reference.label Sample.files Sample.config []
       ([("star", Sample.with_width 8)]
        ++ ("moon", Sample.with_width 8) :: [("star", Sample.with_width 8)])
     = ((main Reference.distance Reference.label Sample.files Sample.config
           [] [("star", Sample.with_width 8)]).1, Some OSError).
Proof.
  split; [vm_compute; reflexivity|]. split; [reflexivity|].
  split; [vm_compute; reflexivity|].
  apply main_stops_at_first_failure;
    [vm_compute; reflexivity | reflexivity | vm_compute; reflexivity].
Defined.

(** C2. A design without a width, whose images load, is not processed at 300
    DPI: the division of the pixel width by the missing width raises
    [TypeError]. *)
Theorem missing_width_raises :
  (exists out,
     process_design Reference.distance Reference.label Sample.files
       Sample.config "star" (Sample.with_width 8) = Ok out)
  /\ process_design Reference.distance Reference.label Sample.files
       Sample.config "star" Sample.no_width = Raise TypeError.
Proof.
  split; [|vm_compute; reflexivity]. eexists. vm_compute. reflexivity.
Qed.

(** C4. On artwork with a small component scanned before a larger one, the
    box taken is that of the small, first-labelled component of the bleed
    mask, not that of its largest component. *)
Theorem bleed_bbox_takes_first_region :
  cut_geometry Reference.distance Reference.label Sample.config 1
    Sample.pair_art = Ok Sample.pair_geometry
  /\ bleed_bbox Reference.label Sample.pair_geometry.2 = Ok (1, 1, 3, 3)
  /\ exists largest,
       sorted_by larger_first
         (regionprops (Reference.label Sample.pair_geometry.2)) !! 0
       = Some largest
       /\ bbox largest = (5, 5, 9, 9)
       /\ num_pixels largest = 12.
Proof.
  split; [vm_compute; reflexivity|]. split; [vm_compute; reflexivity|].
  eexists. split; [vm_compute; reflexivity|]. split; reflexivity.
Qed.

(** ** The properties on the sample designs *)

Lemma expand_edge_zero_witness :
  Reference.distance (phi Sample.star_mask) = Ok Sample.star_field
  /\ keeps_sign (phi Sample.star_mask) Sample.star_field = true
  /\ expand_edge Reference.distance Sample.star_mask 0 = Ok Sample.star_mask.
Proof.
  split; [vm_compute; reflexivity|]. split; [vm_compute; reflexivity|].
  apply (expand_edge_zero Reference.distance Sample.star_mask
           Sample.star_field); vm_compute; reflexivity.
Defined.

Lemma expand_edge_monotone_witness :
  (1 # 2 < 3 # 2)%Q
  /\ Reference.distance (phi Sample.star_mask) = Ok Sample.star_field
  /\ exists m1 m2,
       expand_edge Reference.distance Sample.star_mask (1 # 2) = Ok m1
       /\ expand_edge Reference.distance Sample.star_mask (3 # 2) = Ok m2
       /\ subset_mask m1 m2.
Proof.
  split; [reflexivity|]. split; [vm_compute; reflexivity|].
  apply (expand_edge_monotone Reference.distance Sample.star_mask
           Sample.star_field); [reflexivity | vm_compute; reflexivity].
Defined.

Lemma cut_mask_subset_bleed_mask_witness :
  cut_geometry Reference.distance Reference.label Sample.config 1 Sample.star
    = Ok Sample.star_geometry
  /\ (0 <= bleed_thickness Sample.config * 1)%Q
  /\ subset_mask Sample.star_geometry.1.1 Sample.star_geometry.2.
Proof.
  split; [vm_compute; reflexivity|]. split; [vm_compute; discriminate|].
  apply (cut_mask_subset_bleed_mask Reference.distance Reference.label
           Sample.config 1 Sample.star Sample.star_geometry.1.1
           Sample.star_geometry.1.2 Sample.star_geometry.2).
  - vm_compute. reflexivity.
  - intros sd Hsd. vm_compute in Hsd. injection Hsd as <-.
    vm_compute. reflexivity.
  - vm_compute. discriminate.
Defined.

Lemma remove_holes_keeps_largest_witness :
  labels_foreground Sample.islands (Reference.label Sample.islands) = true
  /\ regionprops (Reference.label Sample.islands) <> []
  /\ exists keep out,
       keep ∈ regionprops (Reference.label Sample.islands)
       /\ (forall props,
             props ∈ regionprops (Reference.label Sample.islands) ->
             num_pixels props <= num_pixels keep)
       /\ remove_holes Reference.label Sample.islands = Ok out
       /\ forall r c,
            pixel_at out r c
            = (fun l => bool_decide (l = region_label keep))
                <$> pixel_at (Reference.label Sample.islands) r c.
Proof.
  split; [vm_compute; reflexivity|]. split; [vm_compute; discriminate|].
  apply (remove_holes_keeps_largest Reference.label Sample.islands);
    [vm_compute; reflexivity | vm_compute; discriminate].
Defined.

Lemma twins_regions :
  regionprops (Reference.label Sample.twins)
  = [Sample.twins_first;
     {| region_label := 2; coords := [(2, 2); (2, 3)];
        bbox := (2, 2, 3, 4) |}].
Proof. vm_compute. reflexivity. Qed.

Lemma remove_holes_tie_break_witness :
  labels_foreground Sample.twins (Reference.label Sample.twins) = true
  /\ Sample.twins_first ∈ regionprops (Reference.label Sample.twins)
  /\ exists out,
       remove_holes Reference.label Sample.twins = Ok out
       /\ forall r c,
            pixel_at out r c
            = (fun l => bool_decide (l = region_label Sample.twins_first))
                <$> pixel_at (Reference.label Sample.twins) r c.
Proof.
  split; [vm_compute; reflexivity|].
  split; [rewrite twins_regions; by left|].
  apply (remove_holes_tie_break Reference.label Sample.twins
           Sample.twins_first).
  - vm_compute. reflexivity.
  - rewrite twins_regions. by left.
  - rewrite twins_regions. intros props Hp.
    apply elem_of_cons in Hp as [->|Hp]; [vm_compute; lia|].
    apply list_elem_of_singleton in Hp as ->. vm_compute. lia.
  - rewrite twins_regions. intros props Hp _.
    apply elem_of_cons in Hp as [->|Hp]; [vm_compute; lia|].
    apply list_elem_of_singleton in Hp as ->. vm_compute. lia.
Defined.

Lemma canvas_fit_uniform_witness :
  contains_bbox Sample.star (3, 3, 2, 2)
  /\ contains_bbox Sample.star_mask (3, 3, 2, 2)
  /\ (Z.of_nat 2 <= 4)%Z
  /\ exists color_image' bleed_mask' cut_mask' cut_contour',
       adjust_image_size Sample.star (3, 3, 2, 2) 4 zero_pixel
         = Ok color_image'
       /\ adjust_image_size Sample.star_mask (3, 3, 2, 2) 4 false
           = Ok bleed_mask'
       /\ adjust_image_size Sample.star_mask (3, 3, 2, 2) 4 false
           = Ok cut_mask'
       /\ adjust_image_size Sample.star_mask (3, 3, 2, 2) 4 false
           = Ok cut_contour'
       /\ is_square color_image' (Z.to_nat 4)
       /\ is_square bleed_mask' (Z.to_nat 4)
       /\ is_square cut_mask' (Z.to_nat 4)
       /\ is_square cut_contour' (Z.to_nat 4).
Proof.
  assert (contains_bbox Sample.star (3, 3, 2, 2)) as Hc.
  { split; [repeat constructor|]. split; vm_compute; lia. }
  assert (contains_bbox Sample.star_mask (3, 3, 2, 2)) as Hm.
  { split; [repeat constructor|]. split; vm_compute; lia. }
  split; [exact Hc|]. split; [exact Hm|]. split; [lia|].
  apply (canvas_fit_uniform Sample.star Sample.star_mask Sample.star_mask
           Sample.star_mask (3, 3, 2, 2) 4 Hc Hm Hm Hm); simpl; lia.
Defined.

(** * Further properties *)

(** ** Canvas fitting, pixel by pixel *)

Lemma lookup_padded_row {A : Type} (before after : nat) (v : A)
    (row : list A) (c : nat) (x : A) :
  (replicate before v ++ row ++ replicate after v) !! c = Some x ->
  x = v \/ (before <= c /\ row !! (c - before) = Some x).
Proof.
  rewrite lookup_app. destruct (replicate before v !! c) as [x'|] eqn:E.
  - intros [= <-]. apply lookup_replicate in E as [-> _]. by left.
  - apply lookup_ge_None in E. rewrite length_replicate in *.
    rewrite lookup_app. destruct (row !! (c - before)) as [x'|] eqn:E'.
    + intros [= <-]. right. split; [lia|done].
    + intros [-> _]%lookup_replicate. by left.
Qed.

Lemma lookup_padded_row_inside {A : Type} (before after : nat) (v : A)
    (row : list A) (j : nat) (x : A) :
  row !! j = Some x ->
  (replicate before v ++ row ++ replicate after v) !! (before + j) = Some x.
Proof.
  intros H. rewrite lookup_app_r by (rewrite length_replicate; lia).
  rewrite length_replicate. replace (before + j - before) with j by lia.
  rewrite lookup_app_l by (by eapply lookup_lt_Some). done.
Qed.

Lemma numpy_pad_Ok {A : Type} (a : grid A) (width : nat)
    (pad_rows pad_cols : Z * Z) (v : A) (out : grid A) :
  numpy_pad a width pad_rows pad_cols v = Ok out ->
  (forall i j x,
     pixel_at a i j = Some x ->
     pixel_at out (Z.to_nat pad_rows.1 + i) (Z.to_nat pad_cols.1 + j)
     = Some x)
  /\ (forall r c x,
        pixel_at out r c = Some x ->
        x = v
        \/ (Z.to_nat pad_rows.1 <= r /\ Z.to_nat pad_cols.1 <= c
            /\ pixel_at a (r - Z.to_nat pad_rows.1) (c - Z.to_nat pad_cols.1)
               = Some x)).
Proof.
  unfold numpy_pad.
  destruct ((pad_rows.1 <? 0) || (pad_rows.2 <? 0) || (pad_cols.1 <? 0)
            || (pad_cols.2 <? 0))%Z; [done|].
  intros [= <-]. unfold pixel_at. split.
  - intros i j x Hij.
    destruct (a !! i) as [row|] eqn:Ei; simpl in Hij; [|done].
    rewrite lookup_app_r by (rewrite length_replicate; lia).
    rewrite length_replicate.
    replace (Z.to_nat pad_rows.1 + i - Z.to_nat pad_rows.1) with i by lia.
    rewrite lookup_app_l
      by (rewrite length_fmap; by eapply lookup_lt_Some).
    rewrite list_lookup_fmap, Ei. simpl.
    by apply lookup_padded_row_inside.
  - intros r c x. rewrite lookup_app.
    destruct (replicate (Z.to_nat pad_rows.1) _ !! r) as [row|] eqn:E.
    { apply lookup_replicate in E as [-> _]. simpl.
      intros [-> _]%lookup_replicate. by left. }
    apply lookup_ge_None in E. rewrite length_replicate in *.
    rewrite lookup_app, list_lookup_fmap.
    destruct (a !! (r - Z.to_nat pad_rows.1)) as [row|] eqn:Er; simpl.
    + intros [->|[Hc Hx]]%lookup_padded_row; [by left|].
      right. split; [lia|]. split; [lia|done].
    + destruct (replicate (Z.to_nat pad_rows.2) _ !! _) as [row|] eqn:E';
        simpl; [|done].
      apply lookup_replicate in E' as [-> _].
      intros [-> _]%lookup_replicate. by left.
Qed.

Lemma pixel_at_crop {A : Type} (m : grid A) (x y w h i j : nat) :
  pixel_at (slice x (x + w) <$> slice y (y + h) m) i j
  = if decide (i < h /\ j < w) then pixel_at m (y + i) (x + j) else None.
Proof.
  unfold pixel_at, slice. rewrite list_lookup_fmap, lookup_take, lookup_drop.
  replace (y + h - y) with h by lia. replace (x + w - x) with w by lia.
  destruct (decide (i < h)) as [Hi|Hi].
  - destruct (m !! (y + i)) as [row|]; simpl.
    + rewrite lookup_take, lookup_drop.
      destruct (decide (j < w)) as [Hj|Hj].
      * by rewrite decide_True by done.
      * rewrite decide_False; [done|]. by intros [_ ?].
    + by destruct (decide (i < h /\ j < w)).
  - simpl. rewrite decide_False; [done|]. by intros [? _].
Qed.

Lemma adjust_image_size_Ok {A : Type} (matrix : grid A) (x y w h : nat)
    (target_size_px : Z) (pad_value : A) (out : grid A) :
  adjust_image_size matrix (x, y, w, h) target_size_px pad_value = Ok out ->
  (forall i j v,
     i < h -> j < w ->
     pixel_at matrix (y + i) (x + j) = Some v ->
     pixel_at out (pad_before target_size_px h + i)
       (pad_before target_size_px w + j) = Some v)
  /\ (forall r c v,
        pixel_at out r c = Some v ->
        v = pad_value
        \/ exists i j,
             i < h /\ j < w
             /\ r = pad_before target_size_px h + i
             /\ c = pad_before target_size_px w + j
             /\ pixel_at matrix (y + i) (x + j) = Some v).
Proof.
  unfold adjust_image_size. intros H.
  apply numpy_pad_Ok in H as [Hin Hout]. simpl fst in *. split.
  - intros i j v Hi Hj Hv. apply Hin. rewrite pixel_at_crop.
    by rewrite decide_True by done.
  - intros r c v Hv. apply Hout in Hv as [->|(Hr & Hc & Hv)]; [by left|].
    right. rewrite pixel_at_crop in Hv.
    destruct (decide (_ /\ _)) as [[Hi Hj]|]; [|done].
    eexists _, _. split; [exact Hi|]. split; [exact Hj|].
    split; [|split; [|exact Hv]]; unfold pad_before; lia.
Qed.

(** X1. [adjust_image_size] raises exactly when the target is smaller than
    the box in width or in height, and what it raises is [ValueError]. *)
Theorem adjust_image_size_raises_iff {A : Type} (matrix : grid A)
    (bbox : nat * nat * nat * nat) (target_size_px : Z) (pad_value : A) :
  match adjust_image_size matrix bbox target_size_px pad_value with
  | Ok _ =>
      (Z.of_nat bbox.1.2 <= target_size_px)%Z
      /\ (Z.of_nat bbox.2 <= target_size_px)%Z
  | Raise e =>
      e = ValueError
      /\ ((target_size_px < Z.of_nat bbox.1.2)%Z
          \/ (target_size_px < Z.of_nat bbox.2)%Z)
  end.
Proof.
  destruct bbox as [[[x y] w] h]. unfold adjust_image_size, numpy_pad.
  simpl fst. simpl snd.
  set (dx := (target_size_px - Z.of_nat w)%Z).
  set (dy := (target_size_px - Z.of_nat h)%Z).
  destruct ((dy `div` 2 <? 0) || (dy - dy `div` 2 <? 0)
            || (dx `div` 2 <? 0) || (dx - dx `div` 2 <? 0))%Z eqn:E.
  - split; [done|]. rewrite !orb_true_iff, !Z.ltb_lt in E.
    subst dx dy. Z.to_euclidean_division_equations. lia.
  - rewrite !orb_false_iff, !Z.ltb_ge in E.
    subst dx dy. Z.to_euclidean_division_equations. lia.
Qed.

(** X2. In the returned buffer the pixels of the box sit at the offsets
    [pad_before], each with the value it had in the source; every other
    pixel is [pad_value]. *)
Theorem adjust_image_size_pixels {A : Type} (matrix : grid A)
    (x y w h : nat) (target_size_px : Z) (pad_value : A) (out : grid A) :
  adjust_image_size matrix (x, y, w, h) target_size_px pad_value = Ok out ->
  (forall i j v,
     i < h -> j < w ->
     pixel_at matrix (y + i) (x + j) = Some v ->
     pixel_at out (pad_before target_size_px h + i)
       (pad_before target_size_px w + j) = Some v)
  /\ (forall r c v,
        pixel_at out r c = Some v ->
        v = pad_value
        \/ exists i j,
             i < h /\ j < w
             /\ r = pad_before target_size_px h + i
             /\ c = pad_before target_size_px w + j
             /\ pixel_at matrix (y + i) (x + j) = Some v).
Proof. apply adjust_image_size_Ok. Qed.

(** X3. Fitting two masks with the same box and target keeps inclusion: if
    every pixel on in [a] is on in [b], the same holds of the fitted
    masks. *)
Theorem adjust_image_size_subset (a b a' b' : grid bool)
    (bbox : nat * nat * nat * nat) (target_size_px : Z) :
  subset_mask a b ->
  adjust_image_size a bbox target_size_px false = Ok a' ->
  adjust_image_size b bbox target_size_px false = Ok b' ->
  subset_mask a' b'.
Proof.
  destruct bbox as [[[x y] w] h]. intros Hsub Ha Hb.
  apply adjust_image_size_Ok in Ha as [_ Ha].
  apply adjust_image_size_Ok in Hb as [Hb _].
  intros r c Hon. apply Ha in Hon as [?|(i & j & Hi & Hj & -> & -> & Hv)];
    [done|].
  apply Hb; [done..|]. by apply Hsub.
Qed.

(** ** Size selection, further *)

Lemma find_smallest_size_Ok (size s : Q) (size_list : list Q) :
  find_smallest_size size size_list = Ok s ->
  In s size_list /\ (size < s)%Q
  /\ forall y, In y size_list -> (size < y)%Q -> (s <= y)%Q.
Proof.
  unfold find_smallest_size. intros H.
  pose proof (first_larger_sorted size (sorted_by Qle_bool size_list)
                (sorted_by_sorted Qle_bool Qle_bool_total Qle_bool_trans
                   size_list)) as Hs.
  rewrite H in Hs. destruct Hs as (H1 & H2 & H3).
  assert (forall y, In y (sorted_by Qle_bool size_list) <-> In y size_list)
    as Hin.
  { intros y. rewrite <- !list_elem_of_In.
    by rewrite (sorted_by_perm Qle_bool size_list). }
  split; [by apply Hin|]. split; [done|]. intros y Hy. apply H3. by apply Hin.
Qed.

Lemma find_smallest_size_Raise (size : Q) (size_list : list Q) (e : exn) :
  find_smallest_size size size_list = Raise e ->
  forall y, In y size_list -> (y <= size)%Q.
Proof.
  unfold find_smallest_size. intros H.
  pose proof (first_larger_sorted size (sorted_by Qle_bool size_list)
                (sorted_by_sorted Qle_bool Qle_bool_total Qle_bool_trans
                   size_list)) as Hs.
  rewrite H in Hs. destruct Hs as [_ Hs]. intros y Hy. apply Hs.
  rewrite <- list_elem_of_In in *.
  by rewrite (sorted_by_perm Qle_bool size_list).
Qed.

(** X4. The size chosen does not depend on the order in which the catalog
    lists its sizes: on two permutations of one list [find_smallest_size]
    raises on both or returns equal sizes. *)
Theorem find_smallest_size_permutation (size : Q) (l l' : list Q) :
  l ≡ₚ l' ->
  match find_smallest_size size l, find_smallest_size size l' with
  | Ok s, Ok s' => (s == s')%Q
  | Raise _, Raise _ => True
  | _, _ => False
  end.
Proof.
  intros Hperm.
  assert (forall y, In y l <-> In y l') as Hin.
  { intros y. rewrite <- !list_elem_of_In. by rewrite Hperm. }
  destruct (find_smallest_size size l) as [s|e] eqn:E;
    destruct (find_smallest_size size l') as [s'|e'] eqn:E'; [| | |done].
  - apply find_smallest_size_Ok in E as (H1 & H2 & H3).
    apply find_smallest_size_Ok in E' as (H1' & H2' & H3').
    apply Qle_antisym; [apply H3|apply H3']; try done; by apply Hin.
  - apply find_smallest_size_Ok in E as (H1 & H2 & _).
    apply Hin, (find_smallest_size_Raise _ _ _ E') in H1.
    exact (Qlt_not_le _ _ H2 H1).
  - apply find_smallest_size_Ok in E' as (H1 & H2 & _).
    apply Hin, (find_smallest_size_Raise _ _ _ E) in H1.
    exact (Qlt_not_le _ _ H2 H1).
Qed.

(** X5. A smaller artwork never gets a larger size: when a size is chosen
    for [size2], one is chosen for every [size1 <= size2], and it is no
    larger. *)
Theorem find_smallest_size_monotone (size1 size2 s2 : Q)
    (size_list : list Q) :
  (size1 <= size2)%Q ->
  find_smallest_size size2 size_list = Ok s2 ->
  exists s1,
    find_smallest_size size1 size_list = Ok s1 /\ (s1 <= s2)%Q.
Proof.
  intros Hle H2. apply find_smallest_size_Ok in H2 as (Hin & Hlt & _).
  assert (size1 < s2)%Q as Hlt1 by (by eapply Qle_lt_trans).
  destruct (find_smallest_size size1 size_list) as [s1|e] eqn:E.
  - exists s1. split; [done|].
    apply find_smallest_size_Ok in E as (_ & _ & Hmin). by apply Hmin.
  - apply (find_smallest_size_Raise _ _ _ E) in Hin.
    exfalso. exact (Qlt_not_le _ _ Hlt1 Hin).
Qed.

(** X6. With a positive DPI the target in pixels is never smaller than the
    artwork, rounding included: for an artwork of fewer than [2 ^ 53] pixels,
    if the size chosen for [art_size_px / dpi] is the float [t], then
    [art_size_px <= int(t * dpi)]. *)
Theorem target_size_px_fits (art_size_px : nat) (dpi a t : Q)
    (size_list : list Q) :
  (0 < dpi)%Q ->
  (Z.of_nat art_size_px < 2 ^ 53)%Z ->
  is_float t ->
  float_div (inject_Z (Z.of_nat art_size_px)) dpi = Ok a ->
  find_smallest_size a size_list = Ok t ->
  (Z.of_nat art_size_px <= int_of_float (float_mul t dpi))%Z.
Proof.
  intros Hdpi Hpx Hfloat Ha Ht. unfold float_div in Ha.
  destruct (Qeq_bool dpi 0); [done|]. injection Ha as <-.
  apply find_smallest_size_Ok in Ht as (_ & Hlt & _).
  set (art := inject_Z (Z.of_nat art_size_px)) in *.
  assert (0 <= art)%Q as Hart.
  { change 0%Q with (inject_Z 0). unfold art. rewrite <- Zle_Qle. lia. }
  assert (~ dpi == 0)%Q as Hne.
  { intros Heq. rewrite Heq in Hdpi. by apply Qlt_irrefl in Hdpi. }
  assert (0 < t)%Q as Htpos.
  { eapply Qle_lt_trans; [|exact Hlt]. apply round_nonneg.
    apply Qle_shift_div_l; [done|]. by rewrite Qmult_0_l. }
  assert (art / dpi < t)%Q as Hquot.
  { apply Qnot_le_lt. intros Hle.
    apply (round_ge_float t) in Hle; [|by apply Qlt_le_weak|done].
    exact (Qlt_not_le _ _ Hlt Hle). }
  assert (art <= t * dpi)%Q as Hprod.
  { apply Qlt_le_weak.
    apply Qle_lt_trans with (art / dpi * dpi)%Q.
    - rewrite Qmult_comm, Qmult_div_r by done. apply Qle_refl.
    - by apply Qmult_lt_compat_r. }
  apply int_of_float_ge; [lia|]. unfold float_mul.
  apply round_ge_float; [done| |done]. apply is_float_int. lia.
Qed.

(** ** Expansion, further *)

(** X7. With a solver that keeps the sign of [phi], expanding by a
    thickness that is not positive never turns a pixel on: every pixel on in
    the result is on in the mask. *)
Theorem expand_edge_nonpositive (distance : grid Q -> result (grid Q))
    (mask out : grid bool) (sd : grid Q) (thickness : Q) :
  distance (phi mask) = Ok sd ->
  keeps_sign (phi mask) sd = true ->
  (thickness <= 0)%Q ->
  expand_edge distance mask thickness = Ok out ->
  subset_mask out mask.
Proof.
  intros Hd Hs Ht. unfold expand_edge. rewrite Hd. simpl. intros [= <-].
  intros r c. rewrite pixel_at_grid_map.
  destruct (pixel_at sd r c) as [d|] eqn:Ed; simpl; [|done].
  intros [= Hle]. apply Qle_bool_iff in Hle.
  destruct (pixel_at_Forall2_r _ _ _ _ _ _ (keeps_sign_phi _ _ Hs) Ed)
    as (b & -> & Hb).
  destruct b; [done|]. exfalso.
  apply (Qlt_not_le _ _ Hb). by eapply Qle_trans.
Qed.

(** ** The cut contour *)

Lemma pixel_at_binary_dilation (m : grid bool) (r c : nat) :
  pixel_at (binary_dilation m) r c
  = (fun b : bool =>
       b || is_on m (S r) c || is_on m r (S c)
         || match r with 0 => false | S r' => is_on m r' c end
         || match c with 0 => false | S c' => is_on m r c' end)
      <$> pixel_at m r c.
Proof.
  unfold binary_dilation, pixel_at. rewrite list_lookup_imap.
  destruct (m !! r) as [row|]; simpl; [|done].
  by rewrite list_lookup_imap.
Qed.

Lemma pixel_at_grid_zip_with {A B C : Type} (f : A -> B -> C) (a : grid A)
    (b : grid B) (r c : nat) (z : C) :
  pixel_at (grid_zip_with f a b) r c = Some z ->
  exists x y, pixel_at a r c = Some x /\ pixel_at b r c = Some y
              /\ z = f x y.
Proof.
  unfold grid_zip_with, pixel_at. rewrite lookup_zip_with.
  destruct (a !! r) as [ra|]; simpl; [|done].
  destruct (b !! r) as [rb|]; simpl; [|done].
  rewrite lookup_zip_with.
  destruct (ra !! c) as [x|]; simpl; [|done].
  destruct (rb !! c) as [y|]; simpl; [|done].
  intros [= <-]. eauto.
Qed.

(** X8. The cut contour never overlaps the cut mask, and each of its
    pixels has an edge neighbour on in the cut mask. *)
Theorem cut_contour_around_cut_mask (distance : grid Q -> result (grid Q))
    (label : grid bool -> grid nat) (s : settings) (dpi : Q)
    (mask_image : image) (cut_mask cut_contour bleed_mask : grid bool)
    (r c : nat) :
  cut_geometry distance label s dpi mask_image
    = Ok (cut_mask, cut_contour, bleed_mask) ->
  pixel_at cut_contour r c = Some true ->
  pixel_at cut_mask r c = Some false
  /\ (is_on cut_mask (S r) c = true
      \/ is_on cut_mask r (S c) = true
      \/ (exists r', r = S r' /\ is_on cut_mask r' c = true)
      \/ (exists c', c = S c' /\ is_on cut_mask r c' = true)).
Proof.
  unfold cut_geometry. intros H Hon.
  apply bind_Ok in H as (expanded & _ & H).
  apply bind_Ok in H as (outside_mask & _ & H).
  apply bind_Ok in H as (expanded' & _ & H).
  apply bind_Ok in H as (bleed & _ & H).
  injection H as <- <- <-.
  apply pixel_at_grid_zip_with in Hon as (d & b & Hd & Hb & Hx).
  rewrite pixel_at_binary_dilation, Hb in Hd. simpl in Hd.
  injection Hd as <-. destruct b.
  - cbn in Hx. discriminate.
  - split; [done|]. rewrite xorb_false_r, orb_false_l in Hx.
    symmetry in Hx. rewrite !orb_true_iff in Hx.
    destruct Hx as [[[?|?]|Hx]|Hx]; [by left|by right; left| |].
    + right. right. left. destruct r as [|r']; [done|]. eauto.
    + right. right. right. destruct c as [|c']; [done|]. eauto.
Qed.

(** ** Hole removal, further *)

Lemma regionprops_coords_in_grid (mask : grid bool) (lab : grid nat)
    (props : region) (p : nat * nat) :
  Forall2 (Forall2 (fun (b : bool) l => eqb b (negb (l =? 0)) = true))
    mask lab ->
  props ∈ regionprops lab -> p ∈ coords props -> in_grid mask p = true.
Proof.
  intros Hfg Hp Hc. destruct p as [r c].
  apply elem_of_regionprops in Hp as [_ Hp]. apply Hp in Hc.
  destruct (pixel_at_Forall2_r _ _ _ _ _ _ Hfg Hc) as (b & Hb & _).
  unfold in_grid. simpl. by rewrite Hb.
Qed.

(** X9. When the labelling marks exactly the pixels that are on, hole
    removal raises nothing, keeps the shape of the mask and never turns a
    pixel on. *)
Theorem remove_holes_only_clears (label : grid bool -> grid nat)
    (mask : grid bool) :
  labels_foreground mask (label mask) = true ->
  exists out,
    remove_holes label mask = Ok out
    /\ subset_mask out mask
    /\ forall r c, is_Some (pixel_at out r c) <-> is_Some (pixel_at mask r c).
Proof.
  intros Hfg%grid_forall2b. unfold remove_holes. cbv zeta.
  destruct (clear_regions_Ok mask
              (drop 1 (sorted_by larger_first (regionprops (label mask)))))
    as (out & Hout & Hpx).
  { intros props p Hp Hc.
    eapply regionprops_coords_in_grid; [exact Hfg| |exact Hc].
    rewrite <- (sorted_by_perm larger_first).
    eapply elem_of_sublist; [exact Hp|apply sublist_drop]. }
  exists out. split; [done|]. split.
  - intros r c. rewrite Hpx. case_decide; [|done].
    by destruct (pixel_at mask r c).
  - intros r c. rewrite Hpx. case_decide; [|done]. apply fmap_is_Some.
Qed.

Lemma regionprops_all_off (mask : grid bool) (lab : grid nat) :
  Forall2 (Forall2 (fun (b : bool) l => eqb b (negb (l =? 0)) = true))
    mask lab ->
  (forall r c, pixel_at mask r c <> Some true) ->
  regionprops lab = [].
Proof.
  intros Hfg Hoff.
  destruct (regionprops lab) as [|props rs] eqn:E; [done|]. exfalso.
  assert (props ∈ regionprops lab) as Hp by (rewrite E; by left).
  pose proof Hp as Hp'. unfold regionprops in Hp'.
  apply list_elem_of_omap in Hp' as (l & _ & (_ & _ & Hne)%region_of_Some).
  apply elem_of_regionprops in Hp as [Hl Hp].
  destruct (coords props) as [|[r c] cs] eqn:Ec; [done|].
  assert (pixel_at lab r c = Some (region_label props)) as Hpx.
  { apply Hp. by left. }
  destruct (pixel_at_Forall2_r _ _ _ _ _ _ Hfg Hpx) as (b & Hb & Hbl).
  apply eqb_prop in Hbl. apply (Hoff r c). rewrite Hb, Hbl.
  by destruct (Nat.eqb_spec (region_label props) 0).
Qed.

(** X10. A mask with no pixel on is returned unchanged by hole removal:
    with no region at all the loop over [regions[1:]] runs zero times. *)
Theorem remove_holes_all_off (label : grid bool -> grid nat)
    (mask : grid bool) :
  labels_foreground mask (label mask) = true ->
  (forall r c, pixel_at mask r c <> Some true) ->
  remove_holes label mask = Ok mask.
Proof.
  intros Hfg%grid_forall2b Hoff. unfold remove_holes. cbv zeta.
  by rewrite (regionprops_all_off mask (label mask) Hfg Hoff).
Qed.

(** ** The bounding box *)

Lemma foldr_min_le (a x : nat) (l : list nat) :
  In x (a :: l) -> foldr Nat.min a l <= x.
Proof.
  induction l as [|y l IH]; simpl.
  - intros [->|[]]. lia.
  - intros [->|[->|H]].
    + specialize (IH (or_introl eq_refl)). lia.
    + lia.
    + specialize (IH (or_intror H)). lia.
Qed.

Lemma foldr_max_ge (a x : nat) (l : list nat) :
  In x (a :: l) -> x <= foldr Nat.max a l.
Proof.
  induction l as [|y l IH]; simpl.
  - intros [->|[]]. lia.
  - intros [->|[->|H]].
    + specialize (IH (or_introl eq_refl)). lia.
    + lia.
    + specialize (IH (or_intror H)). lia.
Qed.

Lemma foldr_max_In (a : nat) (l : list nat) :
  In (foldr Nat.max a l) (a :: l).
Proof.
  induction l as [|y l IH]; simpl; [by left|].
  destruct (Nat.max_spec y (foldr Nat.max a l)) as [[_ ->]|[_ ->]].
  - destruct IH as [IH|IH]; [by left|by right; right].
  - right. by left.
Qed.

Lemma bbox_of_encloses (cs : list (nat * nat)) (r c : nat) :
  (r, c) ∈ cs ->
  (bbox_of cs).1.1.1 <= r < (bbox_of cs).1.2
  /\ (bbox_of cs).1.1.2 <= c < (bbox_of cs).2.
Proof.
  destruct cs as [|[r0 c0] cs]; [by intros ?%elem_of_nil|].
  intros Hin. simpl.
  assert (In r (r0 :: map fst cs)) as Hr.
  { apply elem_of_cons in Hin as [[= -> ->]|Hin]; [by left|].
    right. apply list_elem_of_In in Hin. by apply (in_map fst) in Hin. }
  assert (In c (c0 :: map snd cs)) as Hc.
  { apply elem_of_cons in Hin as [[= -> ->]|Hin]; [by left|].
    right. apply list_elem_of_In in Hin. by apply (in_map snd) in Hin. }
  pose proof (foldr_min_le _ _ _ Hr). pose proof (foldr_max_ge _ _ _ Hr).
  pose proof (foldr_min_le _ _ _ Hc). pose proof (foldr_max_ge _ _ _ Hc).
  lia.
Qed.

Lemma bbox_of_attained (cs : list (nat * nat)) :
  cs <> [] ->
  (exists p, p ∈ cs /\ (bbox_of cs).1.2 = S p.1)
  /\ (exists p, p ∈ cs /\ (bbox_of cs).2 = S p.2).
Proof.
  destruct cs as [|[r0 c0] cs]; [done|]. intros _. simpl. split.
  - destruct (foldr_max_In r0 (map fst cs)) as [<-|H].
    + exists (r0, c0). split; [by left|done].
    + apply in_map_iff in H as (p & Hp & Hin). exists p.
      split; [right; by apply list_elem_of_In|]. by rewrite Hp.
  - destruct (foldr_max_In c0 (map snd cs)) as [<-|H].
    + exists (r0, c0). split; [by left|done].
    + apply in_map_iff in H as (p & Hp & Hin). exists p.
      split; [right; by apply list_elem_of_In|]. by rewrite Hp.
Qed.

Lemma regionprops_region (lab : grid nat) (props : region) :
  props ∈ regionprops lab ->
  coords props <> [] /\ bbox props = bbox_of (coords props).
Proof.
  unfold regionprops. intros (l & _ & H)%list_elem_of_omap.
  unfold region_of in H. destruct (find_coords l 0 lab) as [|p cs]; [done|].
  by injection H as <-.
Qed.

Lemma pixel_at_in_shape {A : Type} (m : grid A) (r c : nat) (x : A) :
  rectangular m -> pixel_at m r c = Some x -> r < nrows m /\ c < ncols m.
Proof.
  unfold pixel_at, rectangular, nrows. intros Hrect H.
  destruct (m !! r) as [row|] eqn:Er; simpl in H; [|done].
  split; [by eapply lookup_lt_Some|].
  rewrite Forall_forall in Hrect.
  rewrite <- (Hrect row) by (by eapply list_elem_of_lookup_2).
  by eapply lookup_lt_Some.
Qed.

Lemma first_region_bbox (label : grid bool -> grid nat) (mask : grid bool)
    (bbox : nat * nat * nat * nat) :
  bleed_bbox label mask = Ok bbox ->
  exists props,
    regionprops (label mask) !! 0 = Some props
    /\ bbox = ((bbox_of (coords props)).1.1.2, (bbox_of (coords props)).1.1.1,
               (bbox_of (coords props)).2 - (bbox_of (coords props)).1.1.2,
               (bbox_of (coords props)).1.2 - (bbox_of (coords props)).1.1.1).
Proof.
  unfold bleed_bbox. cbv zeta.
  destruct (regionprops (label mask) !! 0) as [props|] eqn:E; [|done].
  simpl. exists props. split; [done|].
  apply list_elem_of_lookup_2, regionprops_region in E as [_ E].
  rewrite E in H. destruct (bbox_of (coords props)) as [[[r1 c1] r2] c2].
  simpl in *. by injection H as <-.
Qed.

(** X11. When the labelling marks exactly the pixels that are on, the
    bounding-box step raises exactly when the mask has no pixel on, and
    what it raises is [IndexError]. *)
Theorem bleed_bbox_raises_iff (label : grid bool -> grid nat)
    (mask : grid bool) :
  labels_foreground mask (label mask) = true ->
  match bleed_bbox label mask with
  | Ok _ => exists r c, pixel_at mask r c = Some true
  | Raise e => e = IndexError /\ forall r c, pixel_at mask r c <> Some true
  end.
Proof.
  intros Hfg%grid_forall2b.
  destruct (bleed_bbox label mask) as [box|e] eqn:E.
  - apply first_region_bbox in E as (props & Hp & _).
    apply list_elem_of_lookup_2 in Hp. pose proof Hp as Hp'.
    apply regionprops_region in Hp' as [Hne _].
    apply elem_of_regionprops in Hp as [Hl Hp].
    destruct (coords props) as [|[r c] cs] eqn:Ec; [done|].
    assert (pixel_at (label mask) r c = Some (region_label props)) as Hpx.
    { apply Hp. by left. }
    destruct (pixel_at_Forall2_r _ _ _ _ _ _ Hfg Hpx) as (b & Hb & Hbl).
    apply eqb_prop in Hbl. exists r, c. rewrite Hb, Hbl.
    by destruct (Nat.eqb_spec (region_label props) 0).
  - unfold bleed_bbox in E. cbv zeta in E.
    destruct (regionprops (label mask) !! 0) as [props|] eqn:E0.
    { simpl in E. by destruct (bbox props) as [[[? ?] ?] ?]. }
    simpl in E. injection E as <-. split; [done|].
    intros r c Hon.
    destruct (pixel_at_Forall2 _ _ _ _ _ _ Hfg Hon) as (l & Hl & Hbl).
    apply eqb_prop in Hbl.
    destruct (regionprops_complete (label mask) r c l Hl) as (props & Hp & _).
    { intros ->. done. }
    destruct (regionprops (label mask)); [by apply elem_of_nil in Hp|done].
Qed.

Lemma bleed_bbox_geometry (label : grid bool -> grid nat) (mask : grid bool)
    (x y w h : nat) :
  labels_foreground mask (label mask) = true ->
  rectangular mask ->
  bleed_bbox label mask = Ok (x, y, w, h) ->
  contains_bbox mask (x, y, w, h)
  /\ 1 <= w /\ 1 <= h
  /\ exists props,
       regionprops (label mask) !! 0 = Some props
       /\ forall r c,
            (r, c) ∈ coords props -> y <= r < y + h /\ x <= c < x + w.
Proof.
  intros Hfg%grid_forall2b Hrect H.
  apply first_region_bbox in H as (props & Hp & Hbox).
  pose proof (list_elem_of_lookup_2 _ _ _ Hp) as Hin.
  pose proof (regionprops_region _ _ Hin) as [Hne _].
  pose proof (elem_of_regionprops _ _ Hin) as [_ Hcoords].
  pose proof (bbox_of_encloses (coords props)) as Henc.
  destruct (bbox_of_attained (coords props) Hne)
    as [([pr pc] & Hpr & Er) ([qr qc] & Hqc & Ec)].
  assert (forall r c, (r, c) ∈ coords props ->
                      r < nrows mask /\ c < ncols mask) as Hgrid.
  { intros r c Hc. apply Hcoords in Hc.
    destruct (pixel_at_Forall2_r _ _ _ _ _ _ Hfg Hc) as (b & Hb & _).
    by eapply pixel_at_in_shape. }
  pose proof (Hgrid _ _ Hpr) as [Hr _]. pose proof (Hgrid _ _ Hqc) as [_ Hc].
  pose proof (Henc _ _ Hpr) as [Hr1 _]. pose proof (Henc _ _ Hqc) as [_ Hc1].
  destruct (bbox_of (coords props)) as [[[r1 c1] r2] c2]. simpl in *.
  injection Hbox as -> -> -> ->.
  split; [split; [done|]; lia|]. split; [lia|]. split; [lia|].
  exists props. split; [done|]. intros r c Hrc.
  specialize (Henc _ _ Hrc). lia.
Qed.

(** X12. The box taken from a rectangular mask lies inside the mask, is at
    least one pixel wide and high, and encloses every pixel of the first
    region of the labelling. *)
Theorem bleed_bbox_inside (label : grid bool -> grid nat) (mask : grid bool)
    (x y w h : nat) :
  labels_foreground mask (label mask) = true ->
  rectangular mask ->
  bleed_bbox label mask = Ok (x, y, w, h) ->
  contains_bbox mask (x, y, w, h)
  /\ 1 <= w /\ 1 <= h
  /\ exists props,
       regionprops (label mask) !! 0 = Some props
       /\ forall r c,
            (r, c) ∈ coords props -> y <= r < y + h /\ x <= c < x + w.
Proof. apply bleed_bbox_geometry. Qed.

(** X13. A rectangular mask is always fitted with the box taken from it:
    when the target is at least the box's width and height,
    [adjust_image_size] returns it [target_size_px] square. *)
Theorem bleed_mask_fits (label : grid bool -> grid nat) (mask : grid bool)
    (bbox : nat * nat * nat * nat) (target_size_px : Z) :
  labels_foreground mask (label mask) = true ->
  rectangular mask ->
  bleed_bbox label mask = Ok bbox ->
  (Z.of_nat bbox.1.2 <= target_size_px)%Z ->
  (Z.of_nat bbox.2 <= target_size_px)%Z ->
  exists out,
    adjust_image_size mask bbox target_size_px false = Ok out
    /\ is_square out (Z.to_nat target_size_px).
Proof.
  destruct bbox as [[[x y] w] h]. intros Hfg Hrect Hbox Hw Hh.
  apply adjust_image_size_square; [|done..].
  by destruct (bleed_bbox_geometry label mask x y w h Hfg Hrect Hbox)
    as [? _].
Qed.

(** ** One design *)

Lemma assign_where_shape {A : Type} (image out : grid A) (mask : grid bool)
    (v : A) :
  assign_where image mask v = Ok out ->
  length <$> out = length <$> image.
Proof.
  unfold assign_where, same_shape. case_bool_decide as Hs; [|done].
  intros [= <-]. unfold grid_zip_with.
  revert mask Hs. induction image as [|row image IH]; intros [|mrow mask];
    simpl; try done.
  intros [= Hrow Hrest]. f_equal; [|by apply IH].
  rewrite length_zip_with. lia.
Qed.

Lemma process_design_Ok (distance : grid Q -> result (grid Q))
    (label : grid bool -> grid nat) (files : string -> option image)
    (s : settings) (design_name : string) (details : design_details)
    (out : design_output) :
  process_design distance label files s design_name details = Ok out ->
  out_name out = design_name
  /\ In (out_size_inches out) (sizes s)
  /\ out_size_pixels out
     = int_of_float (float_mul (out_size_inches out) (out_dpi out))
  /\ length <$> out_cut_mask out = length <$> out_full_bleed out
  /\ length <$> out_preview out = length <$> out_full_bleed out.
Proof.
  unfold process_design. cbv zeta. intros H.
  apply bind_Ok in H as (color_image & _ & H).
  apply bind_Ok in H as (mask_image & _ & H).
  apply bind_Ok in H as (dpi & _ & H).
  apply bind_Ok in H as ([[cut_mask cut_contour] bleed_mask] & _ & H).
  apply bind_Ok in H as (bbox & _ & H).
  apply bind_Ok in H as (art_size_inches & _ & H).
  apply bind_Ok in H as (target_size_inches & Hsize & H).
  apply bind_Ok in H as (color_image' & _ & H).
  apply bind_Ok in H as (bleed_mask' & _ & H).
  apply bind_Ok in H as (cut_mask' & _ & H).
  apply bind_Ok in H as (cut_contour' & _ & H).
  apply bind_Ok in H as (full_bleed_image & Hfull & H).
  apply bind_Ok in H as (cut_mask_image & Hcut & H).
  apply bind_Ok in H as (cut_mask_image' & Hcut' & H).
  apply bind_Ok in H as (preview & Hprev & H).
  apply bind_Ok in H as (preview' & Hprev' & H).
  injection H as <-. simpl.
  apply find_smallest_size_Ok in Hsize as [Hin _].
  apply assign_where_shape in Hfull, Hcut, Hcut', Hprev, Hprev'.
  repeat split; [done|congruence..].
Qed.


(** ** The loop over the designs, further *)

(** X15. A run over two lists of designs in sequence is the run over the
    first followed, when that one ends without exception, by the run over
    the second; when the first ends with an exception nothing of the second
    is processed. *)
Theorem main_app (distance : grid Q -> result (grid Q))
    (label : grid bool -> grid nat) (files : string -> option image)
    (s : settings) (design_name_list : list string)
    (before after : list (string * design_details)) :
  main distance label files s design_name_list (before ++ after)
  = match (main distance label files s design_name_list before).2 with
    | None =>
        ((main distance label files s design_name_list before).1
         ++ (main distance label files s design_name_list after).1,
         (main distance label files s design_name_list after).2)
    | Some _ => main distance label files s design_name_list before
    end.
Proof.
  induction before as [|[name d] before IH]; simpl.
  - by destruct (main distance label files s design_name_list after).
  - destruct (selected design_name_list name); [|done].
    destruct (process_design distance label files s name d) as [out|e];
      [|done].
    rewrite IH.
    destruct (main distance label files s design_name_list before)
      as [outs [e|]]; simpl; [done|].
    by destruct (main distance label files s design_name_list after).
Qed.

(** X16. A run that ends without exception has written one record for each
    selected design, in the order of the configuration, under the design's
    own name. *)
Theorem main_names (distance : grid Q -> result (grid Q))
    (label : grid bool -> grid nat) (files : string -> option image)
    (s : settings) (design_name_list : list string)
    (designs : list (string * design_details)) :
  (main distance label files s design_name_list designs).2 = None ->
  out_name <$> (main distance label files s design_name_list designs).1
  = fst <$> filter (fun p => selected design_name_list p.1 = true) designs.
Proof.
  induction designs as [|[name d] designs IH]; simpl; [done|].
  rewrite filter_cons. simpl.
  destruct (selected design_name_list name) eqn:Esel.
  - rewrite decide_True by done.
    destruct (process_design distance label files s name d) as [out|e] eqn:E;
      [|done].
    apply process_design_Ok in E as [Hname _].
    destruct (main distance label files s design_name_list designs)
      as [outs e]. simpl in *.
    intros He. cbn. f_equal; [done|]. by apply IH.
  - rewrite decide_False by done. apply IH.
Qed.

(** X17. Designs that are not selected play no part in a run, not even
    those that would raise: the run is the run over the selected designs
    alone. *)
Theorem main_filter (distance : grid Q -> result (grid Q))
    (label : grid bool -> grid nat) (files : string -> option image)
    (s : settings) (design_name_list : list string)
    (designs : list (string * design_details)) :
  main distance label files s design_name_list designs
  = main distance label files s design_name_list
      (filter (fun p => selected design_name_list p.1 = true) designs).
Proof.
  induction designs as [|[name d] designs IH]; simpl; [done|].
  rewrite filter_cons. simpl.
  destruct (selected design_name_list name) eqn:Esel.
  - rewrite decide_True by done. simpl. rewrite Esel.
    destruct (process_design distance label files s name d); [|done].
    by rewrite IH.
  - by rewrite decide_False by done.
Qed.

(** ** The order manifest *)

Lemma lookup_price_snoc (sizes : list Order.price_item)
    (item : Order.price_item) (size_inches : Q) (quantity : Z) :
  Order.lookup_price (sizes ++ [item]) size_inches quantity
  = if Qeq_bool size_inches (Order.size item)
    then float_mul (Order.price item) (inject_Z quantity)
    else Order.lookup_price sizes size_inches quantity.
Proof. unfold Order.lookup_price. by rewrite foldl_app. Qed.

(** X18. The price charged for a design is that of the last entry of the
    price table whose size equals the design's, times the quantity (a float
    product); a size the table does not list is charged 0. *)
Theorem lookup_price_last_match (sizes : list Order.price_item)
    (size_inches : Q) (quantity : Z) :
  Order.lookup_price sizes size_inches quantity
  = match last (filter (fun item =>
                          Qeq_bool size_inches (Order.size item) = true)
                       sizes) with
    | Some item => float_mul (Order.price item) (inject_Z quantity)
    | None => 0%Q
    end.
Proof.
  induction sizes as [|item sizes IH] using rev_ind; [done|].
  rewrite lookup_price_snoc, filter_app, filter_cons, filter_nil.
  destruct (Qeq_bool size_inches (Order.size item)) eqn:E.
  - rewrite decide_True by done. by rewrite last_snoc.
  - rewrite decide_False by done. by rewrite app_nil_r.
Qed.

(** X19. The [--prices] option is never what decides the path of the price
    table: without [prices_config] in the settings the script stops with
    [AttributeError] whether or not the option is given, and with it the
    option is ignored. *)
Theorem resolve_prices_path_ignores_option (prices_option : option string)
    (prices_config : option string) (config_parent : string) :
  match prices_config with
  | None =>
      Order.resolve_prices_path prices_option None config_parent
      = Order.Raised Order.AttributeError
  | Some p =>
      Order.resolve_prices_path prices_option (Some p) config_parent
      = Order.resolve_prices_path None (Some p) config_parent
      /\ exists path,
           Order.resolve_prices_path prices_option (Some p) config_parent
           = Order.Done path
  end.
Proof.
  destruct prices_config as [p|]; [|by destruct prices_option].
  unfold Order.resolve_prices_path. split; [done|].
  destruct (Order.is_absolute p); eauto.
Qed.

Lemma order_bind_Done {A B : Type} (m : Order.outcome A)
    (k : A -> Order.outcome B) (b : B) :
  m ≫= k = Order.Done b -> exists a, m = Order.Done a /\ k a = Order.Done b.
Proof. destruct m as [a|e]; [|done]. intros H. by exists a. Qed.

Lemma order_get_Done {A : Type} (key : string) (value : option A) (v : A) :
  Order.get key value = Order.Done v -> value = Some v.
Proof. destruct value; [|done]. by intros [= ->]. Qed.

Lemma add_design_Done (settings : Order.details)
    (prices : list Order.price_item) (info : string -> option Order.details)
    (t t' : Order.totals) (design_name : string) (d : Order.details) :
  Order.add_design settings prices info t design_name d = Order.Done t' ->
  exists r,
    Order.rows t' = Order.rows t ++ [r]
    /\ Order.row_name r = design_name
    /\ Order.total_quantity t'
       = (Order.total_quantity t + Order.row_quantity r)%Z
    /\ Order.total_price t'
       = float_add (Order.total_price t)
           (Order.lookup_price prices (Order.row_size r)
              (Order.row_quantity r))
    /\ Some (Order.row_quantity r)
       = match Order.quantity d with
         | Some v => Some v
         | None =>
             match info design_name ≫= Order.quantity with
             | Some v => Some v
             | None => Order.quantity settings
             end
         end
    /\ Some (Order.row_size r)
       = match Order.size_inches d with
         | Some v => Some v
         | None =>
             match info design_name ≫= Order.size_inches with
             | Some v => Some v
             | None => Order.size_inches settings
             end
         end.
Proof.
  unfold Order.add_design. cbv zeta. intros H.
  apply order_bind_Done in H as (quantity & Hq%order_get_Done & H).
  apply order_bind_Done in H as (material & _ & H).
  apply order_bind_Done in H as (laminate & _ & H).
  apply order_bind_Done in H as (size_inches & Hs%order_get_Done & H).
  apply order_bind_Done in H as (resale_price & _ & H).
  injection H as <-. eexists. split; [done|]. simpl.
  split; [done|]. split; [done|]. split; [done|].
  rewrite <- Hq, <- Hs. destruct (info design_name) as [cached|]; simpl.
  - split.
    + by destruct (Order.quantity d), (Order.quantity cached).
    + by destruct (Order.size_inches d), (Order.size_inches cached).
  - split.
    + by destruct (Order.quantity d).
    + by destruct (Order.size_inches d).
Qed.

(** X20. In the row written for a design the quantity and the size are the
    design's own when the order gives them, otherwise those of the design's
    cached info file, otherwise those of the settings. *)
Theorem add_design_precedence (settings : Order.details)
    (prices : list Order.price_item) (info : string -> option Order.details)
    (t t' : Order.totals) (design_name : string) (d : Order.details) :
  Order.add_design settings prices info t design_name d = Order.Done t' ->
  exists r,
    Order.rows t' = Order.rows t ++ [r]
    /\ Order.row_name r = design_name
    /\ Some (Order.row_quantity r)
       = match Order.quantity d with
         | Some v => Some v
         | None =>
             match info design_name ≫= Order.quantity with
             | Some v => Some v
             | None => Order.quantity settings
             end
         end
    /\ Some (Order.row_size r)
       = match Order.size_inches d with
         | Some v => Some v
         | None =>
             match info design_name ≫= Order.size_inches with
             | Some v => Some v
             | None => Order.size_inches settings
             end
         end.
Proof.
  intros H. apply add_design_Done in H as (r & H1 & H2 & _ & _ & H3 & H4).
  exists r. eauto.
Qed.

(** X21. A design is added to the manifest exactly when each of the five
    keys [quantity], [material], [laminate], [size_inches] and
    [resale_price] is given by the order, by the cached info file or by the
    settings; otherwise the script stops with a [KeyError]. *)
Theorem add_design_raises_iff (settings : Order.details)
    (prices : list Order.price_item) (info : string -> option Order.details)
    (t : Order.totals) (design_name : string) (d : Order.details) :
  let resolved :=
    Order.fill (match info design_name with
                | Some cached => Order.fill d cached
                | None => d
                end) settings in
  match Order.add_design settings prices info t design_name d with
  | Order.Done _ =>
      is_Some (Order.quantity resolved)
      /\ is_Some (Order.material resolved)
      /\ is_Some (Order.laminate resolved)
      /\ is_Some (Order.size_inches resolved)
      /\ is_Some (Order.resale_price resolved)
  | Order.Raised e =>
      (exists key, e = Order.KeyError key)
      /\ (Order.quantity resolved = None
          \/ Order.material resolved = None
          \/ Order.laminate resolved = None
          \/ Order.size_inches resolved = None
          \/ Order.resale_price resolved = None)
  end.
Proof.
  intros resolved. unfold Order.add_design. cbv zeta. subst resolved.
  set (resolved := Order.fill _ settings). clearbody resolved.
  destruct resolved as [[q|] [m|] [l|] [sz|] [rp|]]; simpl;
    first [ by repeat split; eexists
          | split; [by eexists | auto 10] ].
Qed.

Lemma string_leb_trans (a b c : string) :
  String.leb a b = true -> String.leb b c = true -> String.leb a c = true.
Proof.
  unfold String.leb. revert b c.
  induction a as [|x a IH]; intros [|y b] [|z c]; simpl; try done.
  unfold Ascii.compare.
  destruct (N.compare_spec (Ascii.N_of_ascii x) (Ascii.N_of_ascii y))
    as [Exy|Exy|Exy];
    destruct (N.compare_spec (Ascii.N_of_ascii y) (Ascii.N_of_ascii z))
      as [Eyz|Eyz|Eyz];
    try done;
    destruct (N.compare_spec (Ascii.N_of_ascii x) (Ascii.N_of_ascii z))
      as [Exz|Exz|Exz];
    try done; try lia.
  apply IH.
Qed.

Lemma process_Raised (settings : Order.details)
    (prices : list Order.price_item) (info : string -> option Order.details)
    (items : list (string * Order.details)) (e : Order.error) :
  foldl (fun acc item =>
           t ← acc; Order.add_design settings prices info t item.1 item.2)
        (Order.Raised e) items
  = Order.Raised e.
Proof. induction items as [|item items IH]; [done|]. exact IH. Qed.

(** The float sum of the prices of the rows, added in row order to [acc]. *)
Lemma process_Done (settings : Order.details)
    (prices : list Order.price_item) (info : string -> option Order.details)
    (items : list (string * Order.details)) (t0 t : Order.totals) :
  foldl (fun acc item =>
           t ← acc; Order.add_design settings prices info t item.1 item.2)
        (Order.Done t0) items
  = Order.Done t ->
  exists new,
    Order.rows t = Order.rows t0 ++ new
    /\ Order.row_name <$> new = fst <$> items
    /\ Order.total_quantity t
       = (Order.total_quantity t0
          + foldr Z.add 0 (Order.row_quantity <$> new))%Z
    /\ Order.total_price t
       = foldl (fun acc r =>
                  float_add acc
                    (Order.lookup_price prices (Order.row_size r)
                       (Order.row_quantity r)))
           (Order.total_price t0) new.
Proof.
  revert t0. induction items as [|[design_name d] items IH]; intros t0.
  - intros [= <-]. exists []. rewrite app_nil_r. simpl.
    split; [done|]. split; [done|]. split; [lia|done].
  - cbn [foldl]. simpl fst. simpl snd.
    change (Order.Done t0 ≫= _)
      with (Order.add_design settings prices info t0 design_name d).
    destruct (Order.add_design settings prices info t0 design_name d)
      as [t1|e] eqn:E; [|by rewrite process_Raised].
    intros H. apply IH in H as (new & Hrows & Hnames & Hq & Hp).
    apply add_design_Done in E as (r & Er & En & Eq & Ep & _).
    exists (r :: new). rewrite Hrows, Er, <- app_assoc. split; [done|].
    rewrite !fmap_cons, Hnames, En. split; [done|]. cbn [foldr foldl].
    split; [lia|]. by rewrite Hp, Ep.
Qed.

(** X22. An order that is processed to the end has one row per design, and
    the rows are in ascending order of the design names: the names of the
    rows are a rearrangement of the names of the order, each no greater than
    those after it. *)
Theorem process_order_rows_sorted (settings : Order.details)
    (prices : list Order.price_item) (info : string -> option Order.details)
    (order_list : list (string * Order.details)) (t : Order.totals) :
  Order.process_order settings prices info order_list = Order.Done t ->
  Order.row_name <$> Order.rows t ≡ₚ fst <$> order_list
  /\ StronglySorted (fun a b => String.leb a b = true)
       (Order.row_name <$> Order.rows t).
Proof.
  unfold Order.process_order. intros H.
  apply process_Done in H as (new & -> & Hnames & _). simpl.
  rewrite Hnames. split.
  - apply fmap_Permutation, sorted_by_perm.
  - apply StronglySorted_fmap
      with (R1 := fun a b : string * Order.details =>
                    String.leb a.1 b.1 = true); [done|].
    apply sorted_by_sorted.
    + intros a b. apply String.leb_total.
    + intros a b c. apply string_leb_trans.
Qed.

(** X23. The totals of an order that is processed to the end are sums over
    its rows: the total quantity is the sum of the rows' quantities, and the
    total cost is the float sum, in row order from 0, of the price looked
    up for each row's size and quantity. *)
Theorem process_order_totals (settings : Order.details)
    (prices : list Order.price_item) (info : string -> option Order.details)
    (order_list : list (string * Order.details)) (t : Order.totals) :
  Order.process_order settings prices info order_list = Order.Done t ->
  length (Order.rows t) = length order_list
  /\ Order.total_quantity t
     = foldr Z.add 0%Z (Order.row_quantity <$> Order.rows t)
  /\ Order.total_price t
     = foldl (fun acc r =>
                float_add acc
                  (Order.lookup_price prices (Order.row_size r)
                     (Order.row_quantity r)))
         0%Q (Order.rows t).
Proof.
  unfold Order.process_order. intros H.
  apply process_Done in H as (new & -> & Hnames & -> & ->). simpl.
  split; [|split; [lia|done]].
  rewrite <- (length_fmap Order.row_name), Hnames, length_fmap.
  apply Permutation_length, sorted_by_perm.
Qed.

Lemma Qeq_bool_inject_Z_0 (z : Z) :
  Qeq_bool (inject_Z z) 0 = true <-> z = 0%Z.
Proof.
  rewrite Qeq_bool_iff. unfold Qeq, inject_Z. simpl. lia.
Qed.

Lemma order_divide_Done (x y q : Q) :
  Order.divide x y = Order.Done q -> ~ (y == 0)%Q /\ q = round (x / y).
Proof.
  unfold Order.divide. destruct (Qeq_bool y 0) eqn:E; [done|].
  intros [= <-]. split; [|done]. by apply Qeq_bool_neq.
Qed.

Lemma order_divide_Raised (x y : Q) (e : Order.error) :
  Order.divide x y = Order.Raised e ->
  e = Order.ZeroDivisionError /\ (y == 0)%Q.
Proof.
  unfold Order.divide. destruct (Qeq_bool y 0) eqn:E; [|done].
  intros [= <-]. split; [done|]. by apply Qeq_bool_iff.
Qed.

Lemma Qdiv_zero_iff (x y : Q) :
  ~ (y == 0)%Q -> ((x / y == 0)%Q <-> (x == 0)%Q).
Proof.
  intros Hy. split; intros H.
  - apply Qeq_trans with (y * (x / y))%Q; [symmetry; by apply Qmult_div_r|].
    apply Qeq_trans with (y * 0)%Q; [|ring].
    apply Qmult_comp; [reflexivity|exact H].
  - unfold Qdiv. apply Qeq_trans with (0 * / y)%Q; [|ring].
    apply Qmult_comp; [exact H|reflexivity].
Qed.

(** X24. The summary divides twice: it stops with [ZeroDivisionError]
    exactly when the total quantity is 0 or the total resale value is 0,
    and is produced otherwise. *)
Theorem summarize_raises_iff (designs : nat) (t : Order.totals) :
  match Order.summarize designs t with
  | Order.Done _ =>
      Order.total_quantity t <> 0%Z
      /\ ~ (Order.total_resale_value t == 0)%Q
  | Order.Raised e =>
      e = Order.ZeroDivisionError
      /\ (Order.total_quantity t = 0%Z
          \/ (Order.total_resale_value t == 0)%Q)
  end.
Proof.
  unfold Order.summarize.
  destruct (Order.divide (Order.total_resale_value t) _) as [pps|e] eqn:E1.
  - apply order_divide_Done in E1 as [Hq ->].
    cbn [mbind Order.outcome_bind].
    destruct (Order.divide (Order.total_price t) _) as [sales|e] eqn:E2.
    + apply order_divide_Done in E2 as [Hp _]. simpl. split.
      * intros H. apply Hq. by rewrite H.
      * intros H. apply Hp. apply (proj2 (round_zero_iff _)).
        by apply Qdiv_zero_iff.
    + apply order_divide_Raised in E2 as [-> Hp]. simpl. split; [done|].
      right. apply (proj1 (round_zero_iff _)) in Hp.
      by apply Qdiv_zero_iff in Hp.
  - apply order_divide_Raised in E1 as [-> Hq]. simpl. split; [done|].
    left. apply Qeq_bool_inject_Z_0. by apply Qeq_bool_iff.
Qed.

(** X25. When the summary is produced for a non-negative total cost and a
    positive price per sticker, the minimum sell amount is at least 1 and
    selling that many stickers at the price per sticker is worth strictly
    more than the total cost, the floats compared as the numbers they are.
    Evaluated as a float product, the worth can round down to the total
    cost but never below it. *)
Theorem min_sale_amount_covers_cost (designs : nat) (t : Order.totals)
    (sm : Order.summary) :
  Order.summarize designs t = Order.Done sm ->
  is_float (Order.total_price t) ->
  (0 <= Order.total_price t)%Q ->
  (0 < Order.price_per_sticker sm)%Q ->
  (Order.min_sale_amount sm < 2 ^ 53)%Z ->
  (1 <= Order.min_sale_amount sm)%Z
  /\ (Order.total_price t
      < inject_Z (Order.min_sale_amount sm) * Order.price_per_sticker sm)%Q
  /\ (Order.total_price t
      <= float_mul (inject_Z (Order.min_sale_amount sm))
           (Order.price_per_sticker sm))%Q.
Proof.
  unfold Order.summarize. intros H Hfloat Hprice.
  apply order_bind_Done in H as (pps & _ & H).
  apply order_bind_Done in H as (sales & [Hpps ->]%order_divide_Done & H).
  injection H as <-. simpl. intros Hpos Hbound.
  set (tp := Order.total_price t) in *.
  assert (0 <= tp / pps)%Q as Hquot.
  { apply Qle_shift_div_l; [done|]. by rewrite Qmult_0_l. }
  assert (0 <= round (tp / pps))%Q as Hsales by by apply round_nonneg.
  destruct (int_of_float_floor _ Hsales) as [_ Hhi].
  assert (0 <= int_of_float (round (tp / pps)))%Z as Hint.
  { apply int_of_float_ge; [done|exact Hsales]. }
  set (m := (int_of_float (round (tp / pps)) + 1)%Z) in *.
  assert (tp < inject_Z m * pps)%Q as Hexact.
  { apply Qnot_le_lt. intros Hle.
    assert (inject_Z m <= tp / pps)%Q as Hm
      by (by apply Qle_shift_div_l).
    apply (round_ge_float (inject_Z m)) in Hm.
    - exact (Qlt_not_le _ _ Hhi Hm).
    - change 0%Q with (inject_Z 0). rewrite <- Zle_Qle. lia.
    - apply is_float_int. lia. }
  split; [lia|]. split; [exact Hexact|].
  unfold float_mul. apply round_ge_float; [done|done|].
  by apply Qlt_le_weak.
Qed.

(** ** The further properties on the sample designs and the sample order *)

Lemma subset_mask_check (a b : grid bool) :
  forall2b (forall2b implb) a b = true -> subset_mask a b.
Proof.
  intros H%grid_forall2b r c Ha.
  destruct (pixel_at_Forall2 _ _ _ _ _ _ H Ha) as (y & Hy & Himp).
  destruct y; [done|discriminate].
Qed.

Lemma pixel_at_all_off {A : Type} (m : grid A) (r c : nat) :
  pixel_at (grid_map (fun _ => false) m) r c <> Some true.
Proof. rewrite pixel_at_grid_map. by destruct (pixel_at m r c). Qed.

Lemma adjust_image_size_pixels_witness :
  adjust_image_size Sample.star_mask (3, 3, 2, 2) 4 false
    = Ok [[false; false; false; false]; [false; true; true; false];
          [false; true; true; false]; [false; false; false; false]]
  /\ (forall i j v,
        i < 2 -> j < 2 ->
        pixel_at Sample.star_mask (3 + i) (3 + j) = Some v ->
        pixel_at [[false; false; false; false]; [false; true; true; false];
                  [false; true; true; false]; [false; false; false; false]]
          (pad_before 4 2 + i) (pad_before 4 2 + j) = Some v)
  /\ (forall r c v,
        pixel_at [[false; false; false; false]; [false; true; true; false];
                  [false; true; true; false]; [false; false; false; false]]
          r c = Some v ->
        v = false
        \/ exists i j,
             i < 2 /\ j < 2
             /\ r = pad_before 4 2 + i
             /\ c = pad_before 4 2 + j
             /\ pixel_at Sample.star_mask (3 + i) (3 + j) = Some v).
Proof.
  split; [vm_compute; reflexivity|].
  apply (adjust_image_size_pixels Sample.star_mask 3 3 2 2 4 false).
  vm_compute. reflexivity.
Defined.

Lemma adjust_image_size_subset_witness :
  subset_mask Sample.star_geometry.1.1 Sample.star_geometry.2
  /\ adjust_image_size Sample.star_geometry.1.1 (2, 2, 4, 4) 6 false
     = Ok [[false; false; false; false; false; false];
           [false; false; false; false; false; false];
           [false; false; true; true; false; false];
           [false; false; true; true; false; false];
           [false; false; false; false; false; false];
           [false; false; false; false; false; false]]
  /\ adjust_image_size Sample.star_geometry.2 (2, 2, 4, 4) 6 false
     = Ok [[false; false; false; false; false; false];
           [false; false; true; true; false; false];
           [false; true; true; true; true; false];
           [false; true; true; true; true; false];
           [false; false; true; true; false; false];
           [false; false; false; false; false; false]]
  /\ subset_mask
       [[false; false; false; false; false; false];
        [false; false; false; false; false; false];
        [false; false; true; true; false; false];
        [false; false; true; true; false; false];
        [false; false; false; false; false; false];
        [false; false; false; false; false; false]]
       [[false; false; false; false; false; false];
        [false; false; true; true; false; false];
        [false; true; true; true; true; false];
        [false; true; true; true; true; false];
        [false; false; true; true; false; false];
        [false; false; false; false; false; false]].
Proof.
  assert (subset_mask Sample.star_geometry.1.1 Sample.star_geometry.2) as Hs
    by (apply subset_mask_check; vm_compute; reflexivity).
  split; [exact Hs|]. split; [vm_compute; reflexivity|].
  split; [vm_compute; reflexivity|].
  apply (adjust_image_size_subset Sample.star_geometry.1.1
           Sample.star_geometry.2 _ _ (2, 2, 4, 4) 6 Hs);
    vm_compute; reflexivity.
Defined.

Lemma find_smallest_size_permutation_witness :
  [4; 6; 8]%Q ≡ₚ [8; 4; 6]%Q
  /\ match find_smallest_size 5 [4; 6; 8]%Q,
           find_smallest_size 5 [8; 4; 6]%Q with
     | Ok s, Ok s' => (s == s')%Q
     | Raise _, Raise _ => True
     | _, _ => False
     end.
Proof.
  assert ([4; 6; 8]%Q ≡ₚ [8; 4; 6]%Q) as Hp
    by (symmetry; apply (Permutation_cons_append [4; 6]%Q 8%Q)).
  split; [exact Hp|]. apply (find_smallest_size_permutation 5 _ _ Hp).
Defined.

Lemma find_smallest_size_monotone_witness :
  (3 <= 5)%Q
  /\ find_smallest_size 5 [4; 6; 8]%Q = Ok 6%Q
  /\ exists s1,
       find_smallest_size 3 [4; 6; 8]%Q = Ok s1 /\ (s1 <= 6)%Q.
Proof.
  split; [vm_compute; discriminate|]. split; [vm_compute; reflexivity|].
  apply (find_smallest_size_monotone 3 5 6 [4; 6; 8]%Q);
    [vm_compute; discriminate | vm_compute; reflexivity].
Defined.

Lemma target_size_px_fits_witness :
  (0 < 4523704982849829 # 70368744177664)%Q
  /\ (Z.of_nat 225 < 2 ^ 53)%Z
  /\ is_float (7 # 2)
  /\ float_div (inject_Z (Z.of_nat 225)) (4523704982849829 # 70368744177664)
     = Ok (7881299347898367 # 2251799813685248)%Q
  /\ find_smallest_size (7881299347898367 # 2251799813685248)
       [3; 7 # 2; 4]%Q
     = Ok (7 # 2)%Q
  /\ (Z.of_nat 225
      <= int_of_float
           (float_mul (7 # 2) (4523704982849829 # 70368744177664)))%Z.
Proof.
  split; [reflexivity|]. split; [reflexivity|].
  split; [vm_compute; reflexivity|]. split; [vm_compute; reflexivity|].
  split; [vm_compute; reflexivity|].
  apply (target_size_px_fits 225 (4523704982849829 # 70368744177664)
           (7881299347898367 # 2251799813685248) (7 # 2) [3; 7 # 2; 4]%Q);
    [reflexivity | reflexivity | vm_compute; reflexivity
    | vm_compute; reflexivity | vm_compute; reflexivity].
Defined.

Lemma expand_edge_nonpositive_witness :
  (exists sd,
     Reference.distance (phi Sample.star_geometry.2) = Ok sd
     /\ keeps_sign (phi Sample.star_geometry.2) sd = true)
  /\ (-1 <= 0)%Q
  /\ expand_edge Reference.distance Sample.star_geometry.2 (-1)
     = Ok Sample.star_mask
  /\ subset_mask Sample.star_mask Sample.star_geometry.2.
Proof.
  assert (exists sd,
            Reference.distance (phi Sample.star_geometry.2) = Ok sd
            /\ keeps_sign (phi Sample.star_geometry.2) sd = true)
    as (sd & Hsd & Hsign)
    by (eexists; split; vm_compute; reflexivity).
  split; [exists sd; split; assumption|]. split; [vm_compute; discriminate|].
  split; [vm_compute; reflexivity|].
  apply (expand_edge_nonpositive Reference.distance Sample.star_geometry.2
           Sample.star_mask sd (-1) Hsd Hsign);
    [vm_compute; discriminate | vm_compute; reflexivity].
Defined.

Lemma cut_contour_around_cut_mask_witness :
  cut_geometry Reference.distance Reference.label Sample.config 1 Sample.star
    = Ok (Sample.star_geometry.1.1, Sample.star_geometry.1.2,
          Sample.star_geometry.2)
  /\ pixel_at Sample.star_geometry.1.2 2 3 = Some true
  /\ pixel_at Sample.star_geometry.1.1 2 3 = Some false
  /\ (is_on Sample.star_geometry.1.1 3 3 = true
      \/ is_on Sample.star_geometry.1.1 2 4 = true
      \/ (exists r', 2 = S r' /\ is_on Sample.star_geometry.1.1 r' 3 = true)
      \/ (exists c', 3 = S c' /\ is_on Sample.star_geometry.1.1 2 c' = true)).
Proof.
  split; [vm_compute; reflexivity|]. split; [vm_compute; reflexivity|].
  apply (cut_contour_around_cut_mask Reference.distance Reference.label
           Sample.config 1 Sample.star Sample.star_geometry.1.1
           Sample.star_geometry.1.2 Sample.star_geometry.2 2 3);
    vm_compute; reflexivity.
Defined.

Lemma remove_holes_only_clears_witness :
  labels_foreground Sample.islands (Reference.label Sample.islands) = true
  /\ exists out,
       remove_holes Reference.label Sample.islands = Ok out
       /\ subset_mask out Sample.islands
       /\ forall r c,
            is_Some (pixel_at out r c)
            <-> is_Some (pixel_at Sample.islands r c).
Proof.
  split; [vm_compute; reflexivity|].
  apply (remove_holes_only_clears Reference.label Sample.islands).
  vm_compute. reflexivity.
Defined.

Lemma remove_holes_all_off_witness :
  labels_foreground (grid_map (fun _ => false) Sample.star)
    (Reference.label (grid_map (fun _ => false) Sample.star)) = true
  /\ (forall r c,
        pixel_at (grid_map (fun _ => false) Sample.star) r c <> Some true)
  /\ remove_holes Reference.label (grid_map (fun _ => false) Sample.star)
     = Ok (grid_map (fun _ => false) Sample.star).
Proof.
  split; [vm_compute; reflexivity|]. split; [apply pixel_at_all_off|].
  apply (remove_holes_all_off Reference.label
           (grid_map (fun _ => false) Sample.star));
    [vm_compute; reflexivity | apply pixel_at_all_off].
Defined.

Lemma bleed_bbox_raises_iff_witness :
  labels_foreground Sample.star_geometry.2
    (Reference.label Sample.star_geometry.2) = true
  /\ match bleed_bbox Reference.label Sample.star_geometry.2 with
     | Ok _ => exists r c, pixel_at Sample.star_geometry.2 r c = Some true
     | Raise e =>
         e = IndexError
         /\ forall r c, pixel_at Sample.star_geometry.2 r c <> Some true
     end.
Proof.
  split; [vm_compute; reflexivity|].
  apply (bleed_bbox_raises_iff Reference.label Sample.star_geometry.2).
  vm_compute. reflexivity.
Defined.

Lemma bleed_bbox_inside_witness :
  labels_foreground Sample.star_geometry.2
    (Reference.label Sample.star_geometry.2) = true
  /\ rectangular Sample.star_geometry.2
  /\ bleed_bbox Reference.label Sample.star_geometry.2 = Ok (2, 2, 4, 4)
  /\ contains_bbox Sample.star_geometry.2 (2, 2, 4, 4)
  /\ 1 <= 4 /\ 1 <= 4
  /\ exists props,
       regionprops (Reference.label Sample.star_geometry.2) !! 0 = Some props
       /\ forall r c,
            (r, c) ∈ coords props -> 2 <= r < 2 + 4 /\ 2 <= c < 2 + 4.
Proof.
  assert (rectangular Sample.star_geometry.2) as Hr
    by (vm_compute; repeat constructor).
  split; [vm_compute; reflexivity|]. split; [exact Hr|].
  split; [vm_compute; reflexivity|].
  apply (bleed_bbox_inside Reference.label Sample.star_geometry.2 2 2 4 4);
    [vm_compute; reflexivity | exact Hr | vm_compute; reflexivity].
Defined.

Lemma bleed_mask_fits_witness :
  labels_foreground Sample.star_geometry.2
    (Reference.label Sample.star_geometry.2) = true
  /\ rectangular Sample.star_geometry.2
  /\ bleed_bbox Reference.label Sample.star_geometry.2 = Ok (2, 2, 4, 4)
  /\ (Z.of_nat 4 <= 6)%Z
  /\ exists out,
       adjust_image_size Sample.star_geometry.2 (2, 2, 4, 4) 6 false = Ok out
       /\ is_square out (Z.to_nat 6).
Proof.
  assert (rectangular Sample.star_geometry.2) as Hr
    by (vm_compute; repeat constructor).
  split; [vm_compute; reflexivity|]. split; [exact Hr|].
  split; [vm_compute; reflexivity|]. split; [lia|].
  apply (bleed_mask_fits Reference.label Sample.star_geometry.2
           (2, 2, 4, 4) 6);
    [vm_compute; reflexivity | exact Hr | vm_compute; reflexivity
    | simpl; lia | simpl; lia].
Defined.


Lemma main_names_witness :
  (main Reference.distance Reference.label Sample.files Sample.config
     ["star"]
     [("moon", Sample.with_width 8); ("star", Sample.with_width 8)]).2
  = None
  /\ out_name
       <$> (main Reference.distance Reference.label Sample.files
              Sample.config ["star"]
              [("moon", Sample.with_width 8);
               ("star", Sample.with_width 8)]).1
     = fst <$> filter (fun p => selected ["star"] p.1 = true)
                 [("moon", Sample.with_width 8);
                  ("star", Sample.with_width 8)].
Proof.
  split; [vm_compute; reflexivity|].
  apply (main_names Reference.distance Reference.label Sample.files
           Sample.config ["star"]
           [("moon", Sample.with_width 8); ("star", Sample.with_width 8)]).
  vm_compute. reflexivity.
Defined.

Lemma add_design_precedence_witness :
  exists t',
    Order.add_design OrderSample.settings OrderSample.prices
      OrderSample.info Order.start "cat" OrderSample.unset = Order.Done t'
    /\ exists r,
         Order.rows t' = Order.rows Order.start ++ [r]
         /\ Order.row_name r = "cat"
         /\ Some (Order.row_quantity r)
            = match Order.quantity OrderSample.unset with
              | Some v => Some v
              | None =>
                  match OrderSample.info "cat" ≫= Order.quantity with
                  | Some v => Some v
                  | None => Order.quantity OrderSample.settings
                  end
              end
         /\ Some (Order.row_size r)
            = match Order.size_inches OrderSample.unset with
              | Some v => Some v
              | None =>
                  match OrderSample.info "cat" ≫= Order.size_inches with
                  | Some v => Some v
                  | None => Order.size_inches OrderSample.settings
                  end
              end.
Proof.
  eexists. split; [vm_compute; reflexivity|].
  apply (add_design_precedence OrderSample.settings OrderSample.prices
           OrderSample.info Order.start _ "cat" OrderSample.unset).
  vm_compute. reflexivity.
Defined.

Lemma process_order_rows_sorted_witness :
  Order.process_order OrderSample.settings OrderSample.prices
    OrderSample.info OrderSample.order_list
  = Order.Done OrderSample.processed
  /\ Order.row_name <$> Order.rows OrderSample.processed
     ≡ₚ fst <$> OrderSample.order_list
  /\ StronglySorted (fun a b => String.leb a b = true)
       (Order.row_name <$> Order.rows OrderSample.processed).
Proof.
  split; [vm_compute; reflexivity|].
  apply (process_order_rows_sorted OrderSample.settings OrderSample.prices
           OrderSample.info OrderSample.order_list OrderSample.processed).
  vm_compute. reflexivity.
Defined.

Lemma process_order_totals_witness :
  Order.process_order OrderSample.settings OrderSample.prices
    OrderSample.info OrderSample.order_list
  = Order.Done OrderSample.processed
  /\ length (Order.rows OrderSample.processed)
     = length OrderSample.order_list
  /\ Order.total_quantity OrderSample.processed
     = foldr Z.add 0%Z
         (Order.row_quantity <$> Order.rows OrderSample.processed)
  /\ Order.total_price OrderSample.processed
     = foldl (fun acc r =>
                float_add acc
                  (Order.lookup_price OrderSample.prices (Order.row_size r)
                     (Order.row_quantity r)))
         0%Q (Order.rows OrderSample.processed).
Proof.
  split; [vm_compute; reflexivity|].
  apply (process_order_totals OrderSample.settings OrderSample.prices
           OrderSample.info OrderSample.order_list OrderSample.processed).
  vm_compute. reflexivity.
Defined.

Lemma min_sale_amount_covers_cost_witness :
  exists sm,
    Order.summarize 1 OrderSample.thin = Order.Done sm
    /\ Order.min_sale_amount sm = 3%Z
    /\ is_float (Order.total_price OrderSample.thin)
    /\ (0 <= Order.total_price OrderSample.thin)%Q
    /\ (0 < Order.price_per_sticker sm)%Q
    /\ (Order.min_sale_amount sm < 2 ^ 53)%Z
    /\ (1 <= Order.min_sale_amount sm)%Z
    /\ (Order.total_price OrderSample.thin
        < inject_Z (Order.min_sale_amount sm) * Order.price_per_sticker sm)%Q
    /\ (Order.total_price OrderSample.thin
        <= float_mul (inject_Z (Order.min_sale_amount sm))
             (Order.price_per_sticker sm))%Q.
Proof.
  eexists. split; [vm_compute; reflexivity|]. split; [reflexivity|].
  split; [vm_compute; reflexivity|]. split; [vm_compute; discriminate|].
  split; [vm_compute; reflexivity|]. split; [reflexivity|].
  apply (min_sale_amount_covers_cost 1 OrderSample.thin);
    [vm_compute; reflexivity | vm_compute; reflexivity
    | vm_compute; discriminate | vm_compute; reflexivity | reflexivity].
Defined.
